(** * logze: a shallow embedding of the logging facade

    The development follows [logze.go] (the [Logger], its entry points, [log],
    [logf], [setErrorWithStack], [incErrorConter], [New]) and the [Config]
    builder.  The zerolog backend is an external collaborator: an event is
    modelled by the trace of builder calls the Logger performs on it, and the
    output of a run is the list of events the Logger finished with [Msg] or
    [Msgf].  Level filtering, serialisation and buffering happen behind that
    interface and are not part of this model. *)

From Stdlib Require Import ZArith Lia Ascii DecimalString.
From stdpp Require Import base list strings gmap.

Local Open Scope string_scope.
Local Open Scope list_scope.
Set Warnings "-register-all".

(** ** Go strings *)

(** [strings.HasPrefix(s, prefix)], byte by byte. *)
Fixpoint HasPrefix (s prefix : string) {struct prefix} : bool :=
  match prefix with
  | EmptyString => true
  | String b prefix' =>
      match s with
      | EmptyString => false
      | String a s' => Ascii.eqb a b && HasPrefix s' prefix'
      end
  end.

(** [strings.Contains(s, substr)]: some suffix of [s] starts with [substr]. *)
Fixpoint Contains (s substr : string) : bool :=
  HasPrefix s substr ||
  match s with
  | EmptyString => false
  | String _ s' => Contains s' substr
  end.

(** [strings.Count(s, sep)] for a one-byte separator counts the bytes of [s]
    equal to it; the Logger only calls it with the separator "%". *)
Fixpoint CountByte (c : ascii) (s : string) : nat :=
  match s with
  | EmptyString => 0
  | String a s' => (if Ascii.eqb a c then 1 else 0) + CountByte c s'
  end.

(** Specification-side reading of "substr occurs in s". *)
Definition substring_of (substr s : string) : Prop :=
  exists pre post, s = pre +:+ substr +:+ post.

(** ** Dynamic values and errors *)

(** The values that travel through a variadic [...any] list.  [AErr] is a
    value whose dynamic type satisfies the [error] interface; [ANil] is the
    nil interface, for which the assertion [a.(error)] fails. *)
Inductive any : Type :=
| ANil
| AStr (s : string)
| AInt (z : Z)
| ABool (b : bool)
| AErr (e : error)
with error : Type :=
| ErrNew (msg : string)
| ErrStacked (msg : string) (stack : list any)
| ErrWithStack (cause : error).

(** [err.Error()].  [errors.WithStack] keeps the message of its cause. *)
Fixpoint Error_string (e : error) : string :=
  match e with
  | ErrNew m => m
  | ErrStacked m _ => m
  | ErrWithStack c => Error_string c
  end.

(** The type assertion [err, ok := a.(error)]. *)
Definition as_error (a : any) : option error :=
  match a with
  | AErr e => Some e
  | _ => None
  end.

(** The assertion [err.(interface{ StackForLogger() []any })]. *)
Definition StackForLogger (e : error) : option (list any) :=
  match e with
  | ErrStacked _ st => Some st
  | _ => None
  end.

(** ** The backend seen from the Logger *)

Inductive zLevel : Type :=
| zTrace | zDebug | zInfo | zWarn | zError | zFatal | zPanic | zNoLevel | zDisabled.

Inductive evcall : Type :=
| EvCaller (skip : nat)
| EvFields (fs : list any)
| EvStack
| EvErr (e : error).

Record Event : Type := mkEvent { ev_level : zLevel; ev_calls : list evcall }.

Definition newEvent (lv : zLevel) : Event := mkEvent lv [].
Definition ev_add (ev : Event) (c : evcall) : Event :=
  mkEvent (ev_level ev) (ev_calls ev ++ [c]).

(** The builder methods [ev.Caller], [ev.Fields], [ev.Stack], [ev.Err]. *)
Definition ev_Caller (ev : Event) (skip : nat) : Event := ev_add ev (EvCaller skip).
Definition ev_Fields (ev : Event) (fs : list any) : Event := ev_add ev (EvFields fs).
Definition ev_Stack (ev : Event) : Event := ev_add ev EvStack.
Definition ev_Err (ev : Event) (e : error) : Event := ev_add ev (EvErr e).

Inductive emit : Type :=
| Msg (s : string)
| Msgf (format : string) (args : list any).

(** A finished event: what the backend receives for one record. *)
Record Entry : Type := mkEntry { en_event : Event; en_emit : emit }.

(** Error attributes, field arguments and stack requests of a record, in the
    order the Logger attached them. *)
Definition evcall_errs (c : evcall) : list error :=
  match c with EvErr e => [e] | _ => [] end.
Definition evcall_fields (c : evcall) : list any :=
  match c with EvFields fs => fs | _ => [] end.

Definition event_errors (ev : Event) : list error :=
  concat (map evcall_errs (ev_calls ev)).
Definition event_fields (ev : Event) : list any :=
  concat (map evcall_fields (ev_calls ev)).

Definition entry_errors (r : Entry) : list error := event_errors (en_event r).
Definition entry_fields (r : Entry) : list any := event_fields (en_event r).

(** The backend reads a field list as alternating keys and values; an
    unpaired last element is left to the backend. *)
Fixpoint pairs (fs : list any) : list (any * any) :=
  match fs with
  | k :: v :: rest => (k, v) :: pairs rest
  | _ => []
  end.

(** ** Process state *)

(** An [ErrorCounter] is shared by reference: a Logger holds the address of a
    counter or nil.  The world records every [Inc] call with its argument. *)
Definition ErrorCounter : Type := option nat.

Record World : Type := mkWorld {
  out : list Entry;
  incs : list (nat * error)
}.

Definition Count (w : World) (c : nat) : nat :=
  length (filter (fun p => p.1 = c) (incs w)).

(** How a call leaves the process. *)
Inductive outcome : Type :=
| Returned
| Exited (code : Z)
| Panicked (v : string).

(** ** fmt and runtime/debug *)

Class Fmt : Type := {
  Sprint : list any -> string;
  Sprintln : list any -> string;
  Sprintf : string -> list any -> string;
  debug_Stack : string
}.

(** The message a finished event carries. *)
Definition rendered `{Fmt} (r : Entry) : string :=
  match en_emit r with
  | Msg s => s
  | Msgf f a => Sprintf f a
  end.

(** ** The Logger *)

(** The part of [zerolog.Logger] that [New] decides: where it writes, its
    minimum level, the context fields bound to it and its hooks. *)
Inductive AlertFunc : Type :=
| AlertDefault
| AlertUser (id : nat).

(** An [io.Writer] value; [WNil] is the nil interface, the zero value of an
    array slot. *)
Inductive Writer : Type :=
| WNil
| Discard
| Stderr
| Buffer (id : nat)
| ConsoleWriter (w : Writer) (noColor : bool)
| MultiLevelWriter (ws : list Writer)
| DiodeWriter (w : Writer) (size : Z) (poll : Z) (alert : AlertFunc).

Record zLogger : Type := mkZ {
  z_w : Writer;
  z_level : zLevel;
  z_timestamp : bool;
  z_context : list any;
  z_hooks : list nat
}.

Record Logger : Type := mkLogger {
  l : zLogger;
  errCounter : ErrorCounter;
  toIgnore : list string;
  stackTrace : bool;
  inited : bool
}.

(** [l.l.Trace()], [l.l.Info()], [l.l.WithLevel(lvl)], [l.l.Log()]: a new
    event at the given level. *)
Definition zEvent (zl : zLogger) (lv : zLevel) : Event := newEvent lv.

(** The loop [for _, ignore := range l.toIgnore] with its early return. *)
Fixpoint ignored (toIgnore : list string) (msg : string) : bool :=
  match toIgnore with
  | [] => false
  | ignore :: rest => if Contains msg ignore then true else ignored rest msg
  end.

Definition ev_Msg (ev : Event) (msg : string) (w : World) : World :=
  mkWorld (out w ++ [mkEntry ev (Msg msg)]) (incs w).
Definition ev_Msgf (ev : Event) (format : string) (args : list any) (w : World) : World :=
  mkWorld (out w ++ [mkEntry ev (Msgf format args)]) (incs w).

Definition incErrorConter (lg : Logger) (err : error) (w : World) : World :=
  match errCounter lg with
  | Some c => mkWorld (out w) (incs w ++ [(c, err)])
  | None => w
  end.

(** [append(dst, src...)] where [dst = arr[:n]] and the capacity suffices:
    the elements of [src] are copied over [arr] from position [n]; the
    elements behind them stay where they are. *)
Definition append_in_place (arr : list any) (n : nat) (src : list any) : list any :=
  take n arr ++ src ++ drop (n + length src) arr.

(** The first index whose element is an error, scanning left to right. *)
Fixpoint first_error (args : list any) (i : nat) : option (nat * error) :=
  match args with
  | [] => None
  | a :: rest =>
      match as_error a with
      | Some err => Some (i, err)
      | None => first_error rest (S i)
      end
  end.

(** [setErrorWithStack].  The variadic [args...] shares its backing array
    with the caller's slice, and the caller keeps its length: the second
    component is what the caller's slice holds afterwards. *)
Definition setErrorWithStack (lg : Logger) (ev : Event) (args : list any) (w : World)
  : Event * list any * World :=
  match first_error args 0 with
  | None => (ev, args, w)
  | Some (i, err) =>
      let '(ev1, err1) :=
        if stackTrace lg then
          match StackForLogger err with
          | Some st => (ev_Fields ev st, err)
          | None => (ev_Stack ev, ErrWithStack err)
          end
        else (ev, err) in
      let w1 := incErrorConter lg err1 w in
      let args1 :=
        if (1 <=? i)%nat then append_in_place args (i - 1) (drop (i + 1) args) else args in
      (ev_Err ev1 err1, args1, w1)
  end.

Definition log (lg : Logger) (ev : Event) (msg : string) (fields : list any) (w : World)
  : World :=
  if ignored (toIgnore lg) msg then w
  else if (1 <? length fields)%nat then
    let '(ev1, fields1, w1) := setErrorWithStack lg ev fields w in
    ev_Msg (ev_Fields ev1 fields1) msg w1
  else ev_Msg ev msg w.

Definition logf (lg : Logger) (ev : Event) (msg : string) (args : list any) (w : World)
  : World :=
  if ignored (toIgnore lg) msg then w
  else
    let numberOfFormats := CountByte "%" msg in
    let '(ev1, args1, w1) :=
      if (0 <? numberOfFormats)%nat && (numberOfFormats <=? length args)%nat then
        let '(e, a, w') := setErrorWithStack lg ev args w in
        (ev_Fields e (drop numberOfFormats a), take numberOfFormats a, w')
      else (ev, args, w) in
    let '(ev2, args2, w2) :=
      if (numberOfFormats =? 0)%nat && (0 <? length args1)%nat then
        let '(e, a, w') := setErrorWithStack lg ev1 args1 w1 in
        (ev_Fields e a, [], w')
      else (ev1, args1, w1) in
    if (length args2 =? 0)%nat then ev_Msg ev2 msg w2
    else ev_Msgf ev2 msg args2 w2.

(** What the caller's [fields] slice holds once [log] has returned: [log]
    hands the slice to [setErrorWithStack], which rewrites it in place. *)
Definition slice_after_log (lg : Logger) (ev : Event) (msg : string) (fields : list any)
  (w : World) : list any :=
  if ignored (toIgnore lg) msg then fields
  else if (1 <? length fields)%nat then (setErrorWithStack lg ev fields w).1.2
  else fields.

(** An [error] interface value passed where [any] is expected. *)
Definition any_of_error (err : option error) : any :=
  match err with
  | Some e => AErr e
  | None => ANil
  end.

(** [errors.WithStack]: nil stays nil. *)
Definition errors_WithStack (err : option error) : option error :=
  match err with
  | Some e => Some (ErrWithStack e)
  | None => None
  end.

Section EntryPoints.
Context `{Fmt}.

(** [errors.New(s)] and [fmt.Errorf(format, args...)]. *)
Definition errors_New (s : string) : error := ErrNew s.
Definition fmt_Errorf (format : string) (args : list any) : error :=
  ErrNew (Sprintf format args).

Definition Trace (lg : Logger) (msg : string) (fields : list any) (w : World) : World :=
  log lg (ev_Caller (zEvent (l lg) zTrace) 1) msg fields w.
Definition Tracef (lg : Logger) (msg : string) (args : list any) (w : World) : World :=
  logf lg (ev_Caller (zEvent (l lg) zTrace) 1) msg args w.

Definition Debug (lg : Logger) (msg : string) (fields : list any) (w : World) : World :=
  log lg (zEvent (l lg) zDebug) msg fields w.
Definition Debugf (lg : Logger) (msg : string) (args : list any) (w : World) : World :=
  logf lg (zEvent (l lg) zDebug) msg args w.

Definition Info (lg : Logger) (msg : string) (fields : list any) (w : World) : World :=
  log lg (zEvent (l lg) zInfo) msg fields w.
Definition Infof (lg : Logger) (msg : string) (args : list any) (w : World) : World :=
  logf lg (zEvent (l lg) zInfo) msg args w.

Definition Warn (lg : Logger) (msg : string) (fields : list any) (w : World) : World :=
  log lg (zEvent (l lg) zWarn) msg fields w.
Definition Warnf (lg : Logger) (msg : string) (args : list any) (w : World) : World :=
  logf lg (zEvent (l lg) zWarn) msg args w.

(** [Err]: the event is built, error attached, before [log] runs. *)
Definition Err (lg : Logger) (err : option error) (msg : string) (fields : list any)
  (w : World) : World :=
  let '(ev, _, w1) := setErrorWithStack lg (zEvent (l lg) zError) [any_of_error err] w in
  log lg ev msg fields w1.

Definition Error (lg : Logger) (msg : string) (fields : list any) (w : World) : World :=
  log lg (zEvent (l lg) zError) msg fields w.
Definition Errorf (lg : Logger) (msg : string) (args : list any) (w : World) : World :=
  logf lg (zEvent (l lg) zError) msg args w.

Definition ErrStack (lg : Logger) (err : option error) (fields : list any) (w : World)
  : World :=
  let err1 :=
    match err with
    | Some e => match StackForLogger e with Some _ => err | None => errors_WithStack err end
    | None => errors_WithStack err
    end in
  log lg (zEvent (l lg) zError) (Sprintf "%+v" [any_of_error err1]) fields w.

Definition Fatal (lg : Logger) (v : list any) (w : World) : World * outcome :=
  let s := Sprint v in
  let w1 := incErrorConter lg (errors_New s) w in
  let w2 := log lg (zEvent (l lg) zFatal) s [] w1 in
  (w2, Exited 1).

Definition Fatalf (lg : Logger) (format : string) (args : list any) (w : World)
  : World * outcome :=
  let w1 := incErrorConter lg (fmt_Errorf format args) w in
  let w2 := log lg (zEvent (l lg) zFatal) format args w1 in
  (w2, Exited 1).

Definition Fatalln (lg : Logger) (v : list any) (w : World) : World * outcome :=
  let s := Sprintln v in
  let w1 := incErrorConter lg (errors_New s) w in
  let w2 := log lg (zEvent (l lg) zFatal) s [] w1 in
  (w2, Exited 1).

Definition Panic (lg : Logger) (v : list any) (w : World) : World * outcome :=
  let s := Sprint v in
  let w1 := incErrorConter lg (errors_New s) w in
  let w2 := log lg (zEvent (l lg) zFatal) s [] w1 in
  (w2, Panicked s).

Definition Panicf (lg : Logger) (format : string) (args : list any) (w : World)
  : World * outcome :=
  let w1 := incErrorConter lg (fmt_Errorf format args) w in
  let ev := zEvent (l lg) zFatal in
  let w2 := log lg ev format args w1 in
  let args1 := slice_after_log lg ev format args w1 in
  (w2, Panicked (Sprintf format args1)).

Definition Panicln (lg : Logger) (v : list any) (w : World) : World * outcome :=
  let s := Sprintln v in
  let w1 := incErrorConter lg (errors_New s) w in
  let w2 := log lg (zEvent (l lg) zFatal) s [] w1 in
  (w2, Panicked s).

Definition Print (lg : Logger) (v : list any) (w : World) : World :=
  if (length v =? 0)%nat then w
  else log lg (zEvent (l lg) zNoLevel) (Sprint v) [] w.

Definition PrintStack (lg : Logger) (v : list any) (w : World) : World :=
  let stack := debug_Stack in
  log lg (zEvent (l lg) zNoLevel) stack v w.

Definition Log (lg : Logger) (v : list any) (w : World) : World :=
  Print lg v w.

Definition Printf (lg : Logger) (format : string) (args : list any) (w : World) : World :=
  logf lg (zEvent (l lg) zNoLevel) format args w.

Definition Println (lg : Logger) (v : list any) (w : World) : World :=
  log lg (zEvent (l lg) zNoLevel) (Sprintln v) [] w.

End EntryPoints.

(** ** A concrete [fmt]

    The fragment of [fmt] that the examples below run: the verbs [%d], [%s]
    and [%v] (with the flag [+]), the escape [%%], and [Sprint]/[Sprintln]
    operand spacing. *)

Definition show (a : any) : string :=
  match a with
  | ANil => "<nil>"
  | AStr s => s
  | AInt z => NilZero.string_of_int (Z.to_int z)
  | ABool b => if b then "true" else "false"
  | AErr e => Error_string e
  end.

Definition is_verb (c : ascii) : bool :=
  Ascii.eqb c "d" || Ascii.eqb c "s" || Ascii.eqb c "v".

Inductive scan_state : Type := Plain | AfterPercent | AfterFlag.

Fixpoint sprintf_from (st : scan_state) (format : string) (args : list any) : string :=
  match format with
  | EmptyString =>
      match st with
      | Plain => ""
      | _ => "%!(NOVERB)"
      end
  | String c rest =>
      match st with
      | Plain =>
          if Ascii.eqb c "%" then sprintf_from AfterPercent rest args
          else String c (sprintf_from Plain rest args)
      | AfterPercent | AfterFlag =>
          if is_verb c then
            match args with
            | a :: args' => show a +:+ sprintf_from Plain rest args'
            | [] => "%!" +:+ String c "(MISSING)" +:+ sprintf_from Plain rest []
            end
          else if Ascii.eqb c "%" then String "%" (sprintf_from Plain rest args)
          else if Ascii.eqb c "+" then sprintf_from AfterFlag rest args
          else String "%" (String c (sprintf_from Plain rest args))
      end
  end.

Definition sprintf (format : string) (args : list any) : string :=
  sprintf_from Plain format args.

Definition is_string (a : any) : bool :=
  match a with AStr _ => true | _ => false end.

(** [Sprint] puts a space between two operands when neither is a string. *)
Fixpoint sprint (v : list any) : string :=
  match v with
  | [] => ""
  | a :: rest =>
      match rest with
      | [] => show a
      | b :: _ =>
          show a +:+ (if is_string a || is_string b then "" else " ") +:+ sprint rest
      end
  end.

Fixpoint sprintln (v : list any) : string :=
  match v with
  | [] => String "010" ""
  | a :: rest =>
      match rest with
      | [] => show a +:+ String "010" ""
      | _ :: _ => show a +:+ " " +:+ sprintln rest
      end
  end.

Definition go_fmt : Fmt := {|
  Sprint := sprint;
  Sprintln := sprintln;
  Sprintf := sprintf;
  debug_Stack := "goroutine 1 [running]:"
|}.

(** ** Config *)

(** A Go slice header over an array in the store: the array's address (or
    nil), the offset of the first element, the length and the capacity. *)
Record slice : Type := mkSlice {
  s_ptr : option nat;
  s_off : nat;
  s_len : nat;
  s_cap : nat
}.

Definition nil_slice : slice := mkSlice None 0 0 0.

(** The store holds the backing arrays of [[]io.Writer] slices and the next
    free address for arrays and counters. *)
Record Store : Type := mkStore {
  arrays : gmap nat (list Writer);
  next_addr : nat
}.

Definition array_at (st : Store) (p : option nat) : list Writer :=
  match p with
  | Some a => default [] (arrays st !! a)
  | None => []
  end.

(** The elements a slice shows: [s[0], ..., s[len-1]]. *)
Definition view (st : Store) (s : slice) : list Writer :=
  take (s_len s) (drop (s_off s) (array_at st (s_ptr s))).

(** A slice header that fits its array: the capacity lies inside the array
    and the length inside the capacity.  Every slice the program can hold
    is of this kind. *)
Definition valid_slice (st : Store) (s : slice) : Prop :=
  s_off s + s_cap s <= length (array_at st (s_ptr s)) /\ s_len s <= s_cap s.

Section GoAppend.
(** The capacity the runtime picks when [append] has to reallocate, from
    the old capacity and the length needed. *)
Variable growcap : nat -> nat -> nat.

(** [append(s, x)]: with spare capacity the element is written into the
    shared array behind the last element; otherwise the elements move to
    a new array. *)
Definition go_append (s : slice) (x : Writer) (st : Store) : slice * Store :=
  if (s_len s <? s_cap s)%nat then
    match s_ptr s with
    | Some a =>
        (mkSlice (s_ptr s) (s_off s) (S (s_len s)) (s_cap s),
         mkStore (<[a := <[s_off s + s_len s := x]> (array_at st (s_ptr s))]> (arrays st))
                 (next_addr st))
    | None => (s, st)
    end
  else
    let newcap := growcap (s_cap s) (S (s_len s)) in
    let a := next_addr st in
    (mkSlice (Some a) 0 (S (s_len s)) newcap,
     mkStore (<[a := (view st s ++ [x] ++ replicate (newcap - S (s_len s)) WNil)%list]>
                (arrays st))
             (S a)).
End GoAppend.

(** The runtime doubles small capacities. *)
Definition double_growcap (oldcap needed : nat) : nat :=
  if (oldcap + oldcap <? needed)%nat then needed else oldcap + oldcap.

(** String forms of the levels. *)
Definition TraceLevel : string := "trace".
Definition DebugLevel : string := "debug".
Definition InfoLevel : string := "info".
Definition WarnLevel : string := "warn".
Definition ErrorLevel : string := "error".
Definition FatalLevel : string := "fatal".
Definition DisabledLevel : string := "disabled".

Definition Levels : list string :=
  [TraceLevel; DebugLevel; InfoLevel; WarnLevel; ErrorLevel; FatalLevel; DisabledLevel].

Definition DefaultDiodeSize : Z := 1000.
Definition DefaultDiodePollingInterval : Z := 10 * 1000000.
Definition time_RFC3339 : string := "2006-01-02T15:04:05Z07:00".

Record Config : Type := mkConfig {
  Writers : slice;
  Level : string;
  TimeFieldFormat : string;
  Hook : option nat;
  ToIgnore : list string;
  cfg_ErrorCounter : ErrorCounter;
  DiodeSize : Z;
  DiodePollingInterval : Z;
  UseDiodeWaiter : bool;
  DiodeAlertFunc : option AlertFunc;
  NoDiode : bool;
  StackTrace : bool
}.

(** [NewConfig(writers...)]: the variadic slice is stored as it is. *)
Definition NewConfig (writers : slice) : Config :=
  mkConfig writers "" "" None [] None 0 0 false None false false.

Definition C (writers : slice) : Config := NewConfig writers.

Definition WithLevel (c : Config) (level : string) : Config :=
  mkConfig (Writers c) level (TimeFieldFormat c) (Hook c) (ToIgnore c) (cfg_ErrorCounter c)
    (DiodeSize c) (DiodePollingInterval c) (UseDiodeWaiter c) (DiodeAlertFunc c) (NoDiode c)
    (StackTrace c).

Definition WithHook (c : Config) (hook : option nat) : Config :=
  mkConfig (Writers c) (Level c) (TimeFieldFormat c) hook (ToIgnore c) (cfg_ErrorCounter c)
    (DiodeSize c) (DiodePollingInterval c) (UseDiodeWaiter c) (DiodeAlertFunc c) (NoDiode c)
    (StackTrace c).

Definition set_Writers (c : Config) (ws : slice) : Config :=
  mkConfig ws (Level c) (TimeFieldFormat c) (Hook c) (ToIgnore c) (cfg_ErrorCounter c)
    (DiodeSize c) (DiodePollingInterval c) (UseDiodeWaiter c) (DiodeAlertFunc c) (NoDiode c)
    (StackTrace c).

Definition WithToIgnore (c : Config) (toIgnore : list string) : Config :=
  mkConfig (Writers c) (Level c) (TimeFieldFormat c) (Hook c) toIgnore (cfg_ErrorCounter c)
    (DiodeSize c) (DiodePollingInterval c) (UseDiodeWaiter c) (DiodeAlertFunc c) (NoDiode c)
    (StackTrace c).

Definition WithTimeFieldFormat (c : Config) (format : string) : Config :=
  mkConfig (Writers c) (Level c) format (Hook c) (ToIgnore c) (cfg_ErrorCounter c)
    (DiodeSize c) (DiodePollingInterval c) (UseDiodeWaiter c) (DiodeAlertFunc c) (NoDiode c)
    (StackTrace c).

Definition WithDiodeSize (c : Config) (size : Z) : Config :=
  mkConfig (Writers c) (Level c) (TimeFieldFormat c) (Hook c) (ToIgnore c) (cfg_ErrorCounter c)
    size (DiodePollingInterval c) (UseDiodeWaiter c) (DiodeAlertFunc c) (NoDiode c)
    (StackTrace c).

Definition WithDiodePollingInterval (c : Config) (interval : Z) : Config :=
  mkConfig (Writers c) (Level c) (TimeFieldFormat c) (Hook c) (ToIgnore c) (cfg_ErrorCounter c)
    (DiodeSize c) interval (UseDiodeWaiter c) (DiodeAlertFunc c) (NoDiode c) (StackTrace c).

Definition WithDiodeAlert (c : Config) (foo : option AlertFunc) : Config :=
  mkConfig (Writers c) (Level c) (TimeFieldFormat c) (Hook c) (ToIgnore c) (cfg_ErrorCounter c)
    (DiodeSize c) (DiodePollingInterval c) (UseDiodeWaiter c) foo (NoDiode c) (StackTrace c).

Definition WithNoDiode (c : Config) : Config :=
  mkConfig (Writers c) (Level c) (TimeFieldFormat c) (Hook c) (ToIgnore c) (cfg_ErrorCounter c)
    (DiodeSize c) (DiodePollingInterval c) (UseDiodeWaiter c) (DiodeAlertFunc c) true
    (StackTrace c).

Definition WithDiodeWaiter (c : Config) : Config :=
  mkConfig (Writers c) (Level c) (TimeFieldFormat c) (Hook c) (ToIgnore c) (cfg_ErrorCounter c)
    (DiodeSize c) (DiodePollingInterval c) true (DiodeAlertFunc c) (NoDiode c) (StackTrace c).

Definition WithStackTrace (c : Config) : Config :=
  mkConfig (Writers c) (Level c) (TimeFieldFormat c) (Hook c) (ToIgnore c) (cfg_ErrorCounter c)
    (DiodeSize c) (DiodePollingInterval c) (UseDiodeWaiter c) (DiodeAlertFunc c) (NoDiode c)
    true.

Definition WithErrorCounter (c : Config) (ec : ErrorCounter) : Config :=
  mkConfig (Writers c) (Level c) (TimeFieldFormat c) (Hook c) (ToIgnore c) ec
    (DiodeSize c) (DiodePollingInterval c) (UseDiodeWaiter c) (DiodeAlertFunc c) (NoDiode c)
    (StackTrace c).

(** [newSimpleErrorCounter()] takes a fresh address. *)
Definition WithSimpleErrorCounter (c : Config) (st : Store) : Config * Store :=
  (WithErrorCounter c (Some (next_addr st)), mkStore (arrays st) (S (next_addr st))).

Definition getConsoleWriter (w : Writer) (color : bool) : Writer :=
  ConsoleWriter w (negb color).

Section Builder.
Variable growcap : nat -> nat -> nat.

(** [c.Writers = append(c.Writers, w)] on the method's copy of [c]. *)
Definition WithWriter (c : Config) (w : Writer) (st : Store) : Config * Store :=
  let '(ws, st') := go_append growcap (Writers c) w st in
  (set_Writers c ws, st').

Definition WithConsole (c : Config) (st : Store) : Config * Store :=
  WithWriter c (getConsoleWriter Stderr true) st.
Definition WithConsoleNoColor (c : Config) (st : Store) : Config * Store :=
  WithWriter c (getConsoleWriter Stderr false) st.
Definition WithConsoleJSON (c : Config) (st : Store) : Config * Store :=
  WithWriter c Stderr st.
End Builder.

(** What a holder of a [Config] value reads from it: every field, with the
    writers the slice shows. *)
Definition config_reads (st : Store) (c : Config) : list Writer * Config :=
  (view st (Writers c), set_Writers c nil_slice).

(** ** New *)

(** The backend's level parser, [zerolog.ParseLevel]: a level, or an error
    for a string it does not recognise. *)
Class Backend : Type := {
  ParseLevel : string -> option zLevel
}.

(** The package-level variables of the backend that [New] assigns. *)
Record zGlobals : Type := mkGlobals {
  g_TimeFieldFormat : string;
  g_ErrorStackMarshaler : bool
}.

(** The result of a call that may panic. *)
Inductive result (A : Type) : Type :=
| Ok (a : A)
| Panics (v : string).
Arguments Ok {A} a.
Arguments Panics {A} v.

Definition New `{Backend} (cfg : Config) (fields : list any) (st : Store) (g : zGlobals)
  : zGlobals * result Logger :=
  let writers :=
    if bool_decide (s_len (Writers cfg) = 0) || bool_decide (Level cfg = DisabledLevel)
    then [Discard] else view st (Writers cfg) in
  let level_s := if bool_decide (Level cfg = "") then InfoLevel else Level cfg in
  let format :=
    if bool_decide (TimeFieldFormat cfg = "") then time_RFC3339 else TimeFieldFormat cfg in
  let g1 := mkGlobals format (g_ErrorStackMarshaler g) in
  match ParseLevel level_s with
  | None => (g1, Panics ("cannot parse level=" +:+ level_s))
  | Some level =>
      match writers !! 0 with
      | None => (g1, Panics "index out of range [0] with length 0")
      | Some output0 =>
          let output1 :=
            if (1 <? length writers)%nat then MultiLevelWriter writers else output0 in
          let output2 :=
            if negb (NoDiode cfg) then
              let size :=
                if (DiodeSize cfg =? 0)%Z then DefaultDiodeSize else DiodeSize cfg in
              let poll0 :=
                if (DiodePollingInterval cfg =? 0)%Z then DefaultDiodePollingInterval
                else DiodePollingInterval cfg in
              let poll := if UseDiodeWaiter cfg then 0%Z else poll0 in
              let alert := default AlertDefault (DiodeAlertFunc cfg) in
              DiodeWriter output1 size poll alert
            else output1 in
          let zl := mkZ output2 level true fields [] in
          let zl1 :=
            match Hook cfg with
            | Some h =>
                mkZ (z_w zl) (z_level zl) (z_timestamp zl) (z_context zl) (z_hooks zl ++ [h])
            | None => zl
            end in
          (mkGlobals format true,
           Ok (mkLogger zl1 (cfg_ErrorCounter cfg) (ToIgnore cfg) (StackTrace cfg) true))
      end
  end.

(** A parser that accepts the level names in lower case. *)
Definition parse_names (s : string) : option zLevel :=
  if bool_decide (s = "trace") then Some zTrace
  else if bool_decide (s = "debug") then Some zDebug
  else if bool_decide (s = "info") then Some zInfo
  else if bool_decide (s = "warn") then Some zWarn
  else if bool_decide (s = "error") then Some zError
  else if bool_decide (s = "fatal") then Some zFatal
  else if bool_decide (s = "panic") then Some zPanic
  else if bool_decide (s = "disabled") then Some zDisabled
  else None.

Definition names_backend : Backend := {| ParseLevel := parse_names |}.

(** ** Calls *)

(** One call of a logging entry point, with its arguments. *)
Inductive call : Type :=
| CTrace (msg : string) (fields : list any)
| CTracef (msg : string) (args : list any)
| CDebug (msg : string) (fields : list any)
| CDebugf (msg : string) (args : list any)
| CInfo (msg : string) (fields : list any)
| CInfof (msg : string) (args : list any)
| CWarn (msg : string) (fields : list any)
| CWarnf (msg : string) (args : list any)
| CErr (err : option error) (msg : string) (fields : list any)
| CError (msg : string) (fields : list any)
| CErrorf (msg : string) (args : list any)
| CErrStack (err : option error) (fields : list any)
| CFatal (v : list any)
| CFatalf (format : string) (args : list any)
| CFatalln (v : list any)
| CPanic (v : list any)
| CPanicf (format : string) (args : list any)
| CPanicln (v : list any)
| CPrint (v : list any)
| CPrintStack (v : list any)
| CLog (v : list any)
| CPrintf (format : string) (args : list any)
| CPrintln (v : list any).

Section Calls.
Context `{Fmt}.

Definition run (lg : Logger) (c : call) (w : World) : World * outcome :=
  match c with
  | CTrace msg fields => (Trace lg msg fields w, Returned)
  | CTracef msg args => (Tracef lg msg args w, Returned)
  | CDebug msg fields => (Debug lg msg fields w, Returned)
  | CDebugf msg args => (Debugf lg msg args w, Returned)
  | CInfo msg fields => (Info lg msg fields w, Returned)
  | CInfof msg args => (Infof lg msg args w, Returned)
  | CWarn msg fields => (Warn lg msg fields w, Returned)
  | CWarnf msg args => (Warnf lg msg args w, Returned)
  | CErr err msg fields => (Err lg err msg fields w, Returned)
  | CError msg fields => (Error lg msg fields w, Returned)
  | CErrorf msg args => (Errorf lg msg args w, Returned)
  | CErrStack err fields => (ErrStack lg err fields w, Returned)
  | CFatal v => Fatal lg v w
  | CFatalf format args => Fatalf lg format args w
  | CFatalln v => Fatalln lg v w
  | CPanic v => Panic lg v w
  | CPanicf format args => Panicf lg format args w
  | CPanicln v => Panicln lg v w
  | CPrint v => (Print lg v w, Returned)
  | CPrintStack v => (PrintStack lg v w, Returned)
  | CLog v => (Log lg v w, Returned)
  | CPrintf format args => (Printf lg format args w, Returned)
  | CPrintln v => (Println lg v w, Returned)
  end.

(** The message a call hands to [log] or [logf]. *)
Definition message (c : call) : string :=
  match c with
  | CTrace msg _ | CTracef msg _ | CDebug msg _ | CDebugf msg _
  | CInfo msg _ | CInfof msg _ | CWarn msg _ | CWarnf msg _
  | CErr _ msg _ | CError msg _ | CErrorf msg _ => msg
  | CErrStack err _ =>
      Sprintf "%+v"
        [any_of_error
           match err with
           | Some e => match StackForLogger e with
                       | Some _ => err
                       | None => errors_WithStack err
                       end
           | None => errors_WithStack err
           end]
  | CFatal v | CPanic v | CPrint v | CLog v => Sprint v
  | CFatalf format _ | CPanicf format _ | CPrintf format _ => format
  | CFatalln v | CPanicln v | CPrintln v => Sprintln v
  | CPrintStack _ => debug_Stack
  end.

(** The entry points that end the process or panic, and the one that
    attaches its error before [log] runs. *)
Definition is_fatal (c : call) : bool :=
  match c with
  | CFatal _ | CFatalf _ _ | CFatalln _ => true
  | _ => false
  end.
Definition is_panic (c : call) : bool :=
  match c with
  | CPanic _ | CPanicf _ _ | CPanicln _ => true
  | _ => false
  end.
Definition is_Err (c : call) : bool :=
  match c with
  | CErr _ _ _ => true
  | _ => false
  end.
End Calls.

(** The per-severity calls of the form [(msg, fields...)]. *)
Definition is_plain (c : call) : bool :=
  match c with
  | CTrace _ _ | CDebug _ _ | CInfo _ _ | CWarn _ _ | CError _ _ => true
  | _ => false
  end.

(** The variadic list of a call. *)
Definition fields_of (c : call) : list any :=
  match c with
  | CTrace _ fs | CTracef _ fs | CDebug _ fs | CDebugf _ fs
  | CInfo _ fs | CInfof _ fs | CWarn _ fs | CWarnf _ fs
  | CErr _ _ fs | CError _ fs | CErrorf _ fs | CErrStack _ fs
  | CFatal fs | CFatalf _ fs | CFatalln fs
  | CPanic fs | CPanicf _ fs | CPanicln fs
  | CPrint fs | CPrintStack fs | CLog fs | CPrintf _ fs | CPrintln fs => fs
  end.

(** The text a Fatal-level call builds from its arguments. *)
Definition formatted_message `{Fmt} (c : call) : string :=
  match c with
  | CFatalf format args | CPanicf format args => Sprintf format args
  | _ => message c
  end.

(** The structured stack the error scan attaches for an error, when stack
    traces are on and the error carries one. *)
Definition stack_fields (lg : Logger) (err : error) : list any :=
  if stackTrace lg then default [] (StackForLogger err) else [].

(** What a slice holds after the error scan found its first error at
    index [i]: the expression [append(args[:i-1], args[i+1:]...)] of
    [setErrorWithStack], run when [i-1 >= 0]. *)
Definition after_scan (i : nat) (args : list any) : list any :=
  if (1 <=? i)%nat then append_in_place args (i - 1) (drop (i + 1) args) else args.

(** The error the scan attaches: wrapped by [errors.WithStack] when stack
    traces are on and the error carries no stack of its own. *)
Definition attached_error (lg : Logger) (err : error) : error :=
  if stackTrace lg then
    match StackForLogger err with
    | Some _ => err
    | None => ErrWithStack err
    end
  else err.

(** ** Logger methods besides the entry points *)

(** The backend methods the Logger's own methods use: [With().Fields(fields)
    .Logger()] binds more context fields, [Level(lvl)] sets the minimum
    level, [zerolog.Nop()] is a disabled logger without a writer. *)
Definition z_With_Fields (zl : zLogger) (fields : list any) : zLogger :=
  mkZ (z_w zl) (z_level zl) (z_timestamp zl) (z_context zl ++ fields) (z_hooks zl).
Definition z_Level (zl : zLogger) (lvl : zLevel) : zLogger :=
  mkZ (z_w zl) lvl (z_timestamp zl) (z_context zl) (z_hooks zl).
Definition zerolog_Nop : zLogger := mkZ WNil zDisabled false [] [].

Module LoggerOps.

Definition NewFromZerolog (zl : zLogger) : Logger :=
  mkLogger zl None [] false true.

Definition Nop : Logger := mkLogger zerolog_Nop None [] false false.

Definition NotInited (lg : Logger) : bool := negb (inited lg).

Definition WithFields (lg : Logger) (fields : list any) : Logger :=
  mkLogger (z_With_Fields (l lg) fields) (errCounter lg) (toIgnore lg) (stackTrace lg)
    (inited lg).

Definition With (lg : Logger) (fields : list any) : Logger := WithFields lg fields.

Definition WithLevel `{Backend} (lg : Logger) (level : string) : result Logger :=
  if bool_decide (level = "") then Ok lg
  else
    match ParseLevel level with
    | None => Panics ("cannot parse level=" +:+ level)
    | Some lvl =>
        Ok (mkLogger (z_Level (l lg) lvl) (errCounter lg) (toIgnore lg) (stackTrace lg)
              (inited lg))
    end.

Definition WithStack (lg : Logger) (stackTrace : bool) : Logger :=
  mkLogger (l lg) (errCounter lg) (toIgnore lg) stackTrace (inited lg).

Definition WithErrorCounter (lg : Logger) (ec : ErrorCounter) : Logger :=
  mkLogger (l lg) ec (toIgnore lg) (stackTrace lg) (inited lg).

(** [newSimpleErrorCounter()] takes a fresh address. *)
Definition WithSimpleErrorCounter (lg : Logger) (st : Store) : Logger * Store :=
  (WithErrorCounter lg (Some (next_addr st)), mkStore (arrays st) (S (next_addr st))).

Definition WithToIgnore (lg : Logger) (toIgnore : list string) : Logger :=
  mkLogger (l lg) (errCounter lg) toIgnore (stackTrace lg) (inited lg).

Definition GetErrorCounter (lg : Logger) : ErrorCounter := errCounter lg.

(** [Update] works through a pointer: the third component is the Logger the
    pointer shows afterwards.  When [New] panics nothing has been assigned. *)
Definition Update `{Backend} (lg : Logger) (cfg : Config) (fields : list any) (st : Store)
  (g : zGlobals) : zGlobals * outcome * Logger :=
  match New cfg fields st g with
  | (g1, Panics v) => (g1, Panicked v, lg)
  | (g1, Ok newLogger) =>
      (g1, Returned,
       mkLogger (l newLogger) (errCounter newLogger) (toIgnore newLogger)
         (stackTrace newLogger) (inited newLogger))
  end.

Section Console.
Context `{Backend}.
Variable growcap : nat -> nat -> nat.

(** [New(NewConfig().WithConsoleJSON(), fields...)]. *)
Definition NewConsoleJSON (fields : list any) (st : Store) (g : zGlobals)
  : zGlobals * result Logger * Store :=
  let '(c, st1) := WithConsoleJSON growcap (NewConfig nil_slice) st in
  (New c fields st1 g, st1).
End Console.

End LoggerOps.

(** ** The global logger *)

(** The package-level [log] variable, and the flags and output of Go's
    standard [log] package, which [SetStdLogger] redirects. *)
Record Process : Type := mkProcess {
  glog : Logger;
  stdlog_flags : Z;
  stdlog_output : option Logger
}.

Module Global.

Definition Default (p : Process) : Logger := glog p.

Definition SetDefault (lg : Logger) (p : Process) : Process :=
  mkProcess lg (stdlog_flags p) (stdlog_output p).

(** [stdlog.SetFlags(0); stdlog.SetOutput(l.WithFields(fields...)); log = l]. *)
Definition SetStdLogger (lg : Logger) (fields : list any) (p : Process) : Process :=
  mkProcess lg 0 (Some (LoggerOps.WithFields lg fields)).

Definition Init `{Backend} (cfg : Config) (fields : list any) (st : Store) (g : zGlobals)
  (p : Process) : zGlobals * outcome * Process :=
  match New cfg fields st g with
  | (g1, Panics v) => (g1, Panicked v, p)
  | (g1, Ok lg) =>
      let p1 := mkProcess lg (stdlog_flags p) (stdlog_output p) in
      (g1, Returned, SetStdLogger (glog p1) [] p1)
  end.

Definition Update `{Backend} (cfg : Config) (fields : list any) (st : Store) (g : zGlobals)
  (p : Process) : zGlobals * outcome * Process :=
  match LoggerOps.Update (glog p) cfg fields st g with
  | (g1, Panicked v, lg) => (g1, Panicked v, mkProcess lg (stdlog_flags p) (stdlog_output p))
  | (g1, o, lg) =>
      let p1 := mkProcess lg (stdlog_flags p) (stdlog_output p) in
      (g1, o, SetStdLogger (glog p1) [] p1)
  end.

Definition WithFields (fields : list any) (p : Process) : Logger :=
  LoggerOps.WithFields (glog p) fields.

Definition WithErrorCounter (ec : ErrorCounter) (p : Process) : Logger :=
  LoggerOps.WithErrorCounter (glog p) ec.

(** [log.toIgnore = toIgnore; return log]: the one global [With*] that
    assigns to the package variable. *)
Definition WithToIgnore (toIgnore : list string) (p : Process) : Logger * Process :=
  let lg := LoggerOps.WithToIgnore (glog p) toIgnore in
  (lg, mkProcess lg (stdlog_flags p) (stdlog_output p)).

(** The free logging functions run the call on the current [log]. *)
Definition run `{Fmt} (p : Process) (c : call) (w : World) : World * outcome :=
  run (glog p) c w.

End Global.

(** ** Reading a call *)

(** The level of the event a call creates.  The Panic-level calls use the
    fatal level, the print calls no level. *)
Definition level_of (c : call) : zLevel :=
  match c with
  | CTrace _ _ | CTracef _ _ => zTrace
  | CDebug _ _ | CDebugf _ _ => zDebug
  | CInfo _ _ | CInfof _ _ => zInfo
  | CWarn _ _ | CWarnf _ _ => zWarn
  | CErr _ _ _ | CError _ _ | CErrorf _ _ | CErrStack _ _ => zError
  | CFatal _ | CFatalf _ _ | CFatalln _ | CPanic _ | CPanicf _ _ | CPanicln _ => zFatal
  | CPrint _ | CPrintStack _ | CLog _ | CPrintf _ _ | CPrintln _ => zNoLevel
  end.

(** [Print()] and [Log()] without arguments return at once. *)
Definition empty_print (c : call) : bool :=
  match c with
  | CPrint [] | CLog [] => true
  | _ => false
  end.

(** The formatted calls, which go through [logf]. *)
Definition is_formatted (c : call) : bool :=
  match c with
  | CTracef _ _ | CDebugf _ _ | CInfof _ _ | CWarnf _ _ | CErrorf _ _ | CPrintf _ _ => true
  | _ => false
  end.

(** A chain [c.WithWriter(w1).WithWriter(w2)...]. *)
Fixpoint with_writers (growcap : nat -> nat -> nat) (c : Config) (ws : list Writer)
  (st : Store) : Config * Store :=
  match ws with
  | [] => (c, st)
  | w :: rest =>
      let '(c1, st1) := WithWriter growcap c w st in
      with_writers growcap c1 rest st1
  end.

(** The allocator has not handed out addresses it still counts as free. *)
Definition store_ok (st : Store) : Prop :=
  forall a, is_Some (arrays st !! a) -> a < next_addr st.

(** Some entry of the Logger's ignore-list occurs in the message. *)
Definition suppressed (lg : Logger) (msg : string) : Prop :=
  exists s, In s (toIgnore lg) /\ substring_of s msg.

(** The most [Inc] calls a call can make: one for the error it is given or
    builds, one for an error found among its fields. *)
Definition max_incs (c : call) : nat :=
  match c with
  | CErr _ _ _ | CFatalf _ _ | CPanicf _ _ => 2
  | _ => 1
  end.

Definition is_Panicf (c : call) : bool :=
  match c with
  | CPanicf _ _ => true
  | _ => false
  end.

(** ** Sample values *)

Definition stderr_backend : zLogger := mkZ Stderr zInfo true [] [].

(** A Logger with counter 0 and the ignore-list ["ignore me"]. *)
Definition sample_logger : Logger :=
  mkLogger stderr_backend (Some 0) ["ignore me"] false true.

(** The same Logger with stack traces on. *)
Definition stack_logger : Logger :=
  mkLogger stderr_backend (Some 0) ["ignore me"] true true.

(** A Logger whose ignore-list holds a rendered message. *)
Definition value_logger : Logger :=
  mkLogger stderr_backend (Some 0) ["value 42"] false true.

(** A base [Config] whose writer slice has length 1 and capacity 2, as
    [NewConfig(ws[:1]...)] gives for a two-element [ws]. *)
Definition spare_store : Store := mkStore {[0 := [Discard; WNil]]} 1.
Definition spare_base : Config := NewConfig (mkSlice (Some 0) 0 1 2).

(** A store with one one-element array, and a [Config] over it that is
    switched off and writes without a diode. *)
Definition stderr_store : Store := mkStore {[0 := [Stderr]]} 1.
Definition disabled_config : Config :=
  WithNoDiode (WithLevel (NewConfig (mkSlice (Some 0) 0 1 1)) DisabledLevel).
Definition disabled_logger : Logger :=
  mkLogger (mkZ Discard zDisabled true [] []) None [] false true.

(** A [Config] without writers that asks for the diode waiter. *)
Definition waiter_config : Config := WithDiodeWaiter (NewConfig nil_slice).
Definition waiter_logger : Logger :=
  mkLogger (mkZ (DiodeWriter Discard 1000 0 AlertDefault) zInfo true [] []) None [] false
    true.

Definition start_globals : zGlobals := mkGlobals "" false.
Definition rfc_globals : zGlobals := mkGlobals time_RFC3339 true.

Definition empty_world : World := mkWorld [] [].

Definition errX : error := ErrNew "boom".

(** * Properties *)

(** ** Substring tests *)

Lemma HasPrefix_spec (s prefix : string) :
  HasPrefix s prefix = true <-> exists post, s = prefix +:+ post.
Proof.
  revert s. induction prefix as [|b p IH]; intros s; simpl.
  - split; [intros _; exists s; reflexivity | reflexivity].
  - destruct s as [|a s']; simpl.
    + split; [discriminate | intros [post Hp]; discriminate].
    + rewrite andb_true_iff, Ascii.eqb_eq, IH. split.
      * intros [-> [post ->]]. exists post. reflexivity.
      * intros [post Hp]. injection Hp as -> ->. split; [reflexivity | eauto].
Qed.

Lemma Contains_spec (s substr : string) :
  Contains s substr = true <-> substring_of substr s.
Proof.
  unfold substring_of. induction s as [|a s' IH]; simpl.
  - rewrite orb_false_r, HasPrefix_spec. split.
    + intros [post Hp]. exists "", post. exact Hp.
    + intros [pre [post Hp]]. destruct pre; [|discriminate]. exists post. exact Hp.
  - rewrite orb_true_iff, HasPrefix_spec, IH. split.
    + intros [[post Hp] | [pre [post Hp]]].
      * exists "", post. exact Hp.
      * exists (String a pre), post. simpl. rewrite Hp. reflexivity.
    + intros [pre [post Hp]]. destruct pre as [|a' pre']; simpl in Hp.
      * left. exists post. exact Hp.
      * right. injection Hp as -> ->. exists pre', post. reflexivity.
Qed.

Lemma ignored_spec (toIgnore : list string) (msg : string) :
  ignored toIgnore msg = true <-> exists s, In s toIgnore /\ substring_of s msg.
Proof.
  induction toIgnore as [|i rest IH]; simpl.
  - split; [discriminate | intros [s [[] _]]].
  - destruct (Contains msg i) eqn:Hc.
    + split; [intros _ | reflexivity]. exists i. split; [left; reflexivity |].
      apply Contains_spec. exact Hc.
    + rewrite IH. split.
      * intros [s [Hin Hs]]. exists s. split; [right; exact Hin | exact Hs].
      * intros [s [[-> | Hin] Hs]].
        -- apply Contains_spec in Hs. congruence.
        -- exists s. split; assumption.
Qed.

Lemma ignored_false_spec (toIgnore : list string) (msg : string) :
  ignored toIgnore msg = false <-> ~ exists s, In s toIgnore /\ substring_of s msg.
Proof.
  rewrite <- ignored_spec. destruct (ignored toIgnore msg); intuition congruence.
Qed.

(** ** The counter *)

Lemma Count_app (w : World) (c : nat) (o : list Entry) (more : list (nat * error)) :
  Count (mkWorld o (incs w ++ more)) c =
  Count w c + length (filter (fun p => p.1 = c) more).
Proof.
  unfold Count. simpl. rewrite filter_app, length_app. reflexivity.
Qed.

Lemma Count_inc (lg : Logger) (err : error) (w : World) (c : nat) :
  errCounter lg = Some c -> Count (incErrorConter lg err w) c = S (Count w c).
Proof.
  intros Hc. unfold incErrorConter. rewrite Hc, Count_app. simpl.
  rewrite filter_cons_True by reflexivity. simpl. lia.
Qed.

Lemma out_inc (lg : Logger) (err : error) (w : World) :
  out (incErrorConter lg err w) = out w.
Proof. unfold incErrorConter. destruct (errCounter lg); reflexivity. Qed.

Lemma incs_inc (lg : Logger) (err : error) (w : World) (c : nat) :
  errCounter lg = Some c -> incs (incErrorConter lg err w) = incs w ++ [(c, err)].
Proof. intros Hc. unfold incErrorConter. rewrite Hc. reflexivity. Qed.

(** ** Suppression in [log] and [logf] *)

Lemma log_ignored lg ev msg fields w :
  ignored (toIgnore lg) msg = true -> log lg ev msg fields w = w.
Proof. intros Hi. unfold log. rewrite Hi. reflexivity. Qed.

Lemma logf_ignored lg ev msg args w :
  ignored (toIgnore lg) msg = true -> logf lg ev msg args w = w.
Proof. intros Hi. unfold logf. rewrite Hi. reflexivity. Qed.

(** [setErrorWithStack] only ever touches the counter. *)
Lemma setErrorWithStack_out lg ev args w :
  out (setErrorWithStack lg ev args w).2 = out w.
Proof.
  unfold setErrorWithStack. destruct (first_error args 0) as [[i err]|]; [|reflexivity].
  destruct (stackTrace lg); [destruct (StackForLogger err)|]; simpl; apply out_inc.
Qed.

Lemma setErrorWithStack_none lg ev args w :
  first_error args 0 = None -> setErrorWithStack lg ev args w = (ev, args, w).
Proof. intros Hn. unfold setErrorWithStack. rewrite Hn. reflexivity. Qed.

(** ** Suppressed calls *)

Section Suppression.
Context `{Fmt}.

Lemma Err_out_ignored lg err msg fields w :
  ignored (toIgnore lg) msg = true -> out (Err lg err msg fields w) = out w.
Proof.
  intros Hi. unfold Err.
  pose proof (setErrorWithStack_out lg (zEvent (l lg) zError) [any_of_error err] w) as Ho.
  destruct (setErrorWithStack lg (zEvent (l lg) zError) [any_of_error err] w)
    as [[ev a] w1].
  rewrite log_ignored by exact Hi. exact Ho.
Qed.

Lemma suppressed_quiet lg c w :
  ignored (toIgnore lg) (message c) = true ->
  is_fatal c = false -> is_panic c = false -> is_Err c = false ->
  run lg c w = (w, Returned).
Proof.
  intros Hi Hf Hp He.
  destruct c; simpl in *; try discriminate;
    unfold Trace, Tracef, Debug, Debugf, Info, Infof, Warn, Warnf, Error, Errorf,
      ErrStack, Print, PrintStack, Log, Print, Printf, Println;
    rewrite ?log_ignored, ?logf_ignored by exact Hi;
    try reflexivity.
  all: destruct (length v =? 0)%nat; reflexivity.
Qed.

Lemma suppressed_out lg c w :
  ignored (toIgnore lg) (message c) = true -> out (run lg c w).1 = out w.
Proof.
  intros Hi.
  destruct (is_fatal c) eqn:Hf; [|destruct (is_panic c) eqn:Hp; [|destruct (is_Err c) eqn:He]].
  - destruct c; try discriminate; simpl in *;
      rewrite log_ignored by exact Hi; apply out_inc.
  - destruct c; try discriminate; simpl in *;
      rewrite log_ignored by exact Hi; apply out_inc.
  - destruct c; try discriminate; simpl in *. apply Err_out_ignored. exact Hi.
  - rewrite (suppressed_quiet lg c w Hi Hf Hp He). reflexivity.
Qed.

Lemma suppressed_fatal lg c w :
  ignored (toIgnore lg) (message c) = true -> is_fatal c = true ->
  (run lg c w).2 = Exited 1 /\
  forall c0, errCounter lg = Some c0 -> Count (run lg c w).1 c0 = S (Count w c0).
Proof.
  intros Hi Hf.
  destruct c; try discriminate; simpl in *; (split; [reflexivity|]);
    intros c0 Hc; rewrite log_ignored by exact Hi; apply Count_inc; exact Hc.
Qed.
End Suppression.

(** C1 (as amended).  When some entry of the ignore-list is a substring of
    the message a call hands to [log] or [logf] (for the formatted calls the
    format string as passed), no entry point emits a record; every entry
    point other than [Err] and the Fatal- and Panic-level ones leaves the
    whole world unchanged, the error counter included, and returns; the
    Fatal-level entry points still increment the error counter once and end
    the process with exit code 1. *)
Theorem C1_suppressed_call `{Fmt} (lg : Logger) (c : call) (w : World) :
  (exists s, In s (toIgnore lg) /\ substring_of s (message c)) ->
  out (run lg c w).1 = out w /\
  (is_fatal c = false -> is_panic c = false -> is_Err c = false ->
   run lg c w = (w, Returned)) /\
  (is_fatal c = true ->
   (run lg c w).2 = Exited 1 /\
   forall c0, errCounter lg = Some c0 -> Count (run lg c w).1 c0 = S (Count w c0)).
Proof.
  intros Hs. apply ignored_spec in Hs. split; [|split].
  - apply suppressed_out. exact Hs.
  - apply suppressed_quiet. exact Hs.
  - apply suppressed_fatal. exact Hs.
Qed.

Lemma C1_suppressed_call_witness :
  (exists s, In s (toIgnore sample_logger) /\
             substring_of s (@message go_fmt (CInfo "do ignore me" [AStr "k"; AStr "v"]))) /\
  @run go_fmt sample_logger (CInfo "do ignore me" [AStr "k"; AStr "v"]) empty_world
  = (empty_world, Returned).
Proof.
  assert (Hs : exists s, In s (toIgnore sample_logger) /\
               substring_of s (@message go_fmt (CInfo "do ignore me" [AStr "k"; AStr "v"]))).
  { exists "ignore me". split; [left; reflexivity | exists "do ", ""; reflexivity]. }
  split; [exact Hs|].
  apply (@C1_suppressed_call go_fmt sample_logger _ empty_world Hs); reflexivity.
Defined.

(** C1 fails as stated: [Fatal] with a message the ignore-list matches emits
    no record, yet it increments the error counter and ends the process. *)
Lemma C1_counterexample :
  In "ignore me" (toIgnore sample_logger) /\
  substring_of "ignore me" (@message go_fmt (CFatal [AStr "ignore me"])) /\
  errCounter sample_logger = Some 0 /\
  Count empty_world 0 = 0 /\
  Count (@run go_fmt sample_logger (CFatal [AStr "ignore me"]) empty_world).1 0 = 1 /\
  (@run go_fmt sample_logger (CFatal [AStr "ignore me"]) empty_world).2 = Exited 1.
Proof.
  split; [left; reflexivity|]. split; [exists "", ""; reflexivity|].
  repeat split; reflexivity.
Qed.

(** ** The error scan *)

Lemma event_errors_add ev c : event_errors (ev_add ev c) = event_errors ev ++ evcall_errs c.
Proof.
  unfold event_errors, ev_add. simpl. rewrite map_app, concat_app. simpl.
  rewrite app_nil_r. reflexivity.
Qed.

Lemma event_fields_add ev c : event_fields (ev_add ev c) = event_fields ev ++ evcall_fields c.
Proof.
  unfold event_fields, ev_add. simpl. rewrite map_app, concat_app. simpl.
  rewrite app_nil_r. reflexivity.
Qed.

Lemma Error_string_attached lg err : Error_string (attached_error lg err) = Error_string err.
Proof.
  unfold attached_error. destruct (stackTrace lg); [destruct (StackForLogger err)|]; reflexivity.
Qed.

Lemma first_error_lookup (args : list any) (k i : nat) (e : error) :
  args !! i = Some (AErr e) ->
  (forall j a, j < i -> args !! j = Some a -> as_error a = None) ->
  first_error args k = Some (k + i, e).
Proof.
  revert k i. induction args as [|a rest IH]; intros k i Hi Hbefore.
  - discriminate.
  - destruct i as [|i'].
    + simpl in Hi. injection Hi as ->. simpl. rewrite Nat.add_0_r. reflexivity.
    + simpl. rewrite (Hbefore 0 a) by first [lia | reflexivity].
      rewrite (IH (S k) i').
      * f_equal. f_equal. lia.
      * exact Hi.
      * intros j b Hj Hb. apply (Hbefore (S j) b); [lia | exact Hb].
Qed.

Lemma first_error_none (args : list any) (k : nat) :
  (forall a, In a args -> as_error a = None) <-> first_error args k = None.
Proof.
  revert k. induction args as [|a rest IH]; intros k; simpl.
  - split; [reflexivity | intros _ a []].
  - split.
    + intros Hall. rewrite (Hall a) by (left; reflexivity). apply IH.
      intros b Hb. apply Hall. right. exact Hb.
    + destruct (as_error a) eqn:Ha; [discriminate|]. intros Hr b [<- | Hb]; [exact Ha|].
      apply (proj2 (IH (S k)) Hr). exact Hb.
Qed.

(** The scan on a list whose first error sits at index [i]. *)
Lemma setErrorWithStack_some lg ev args w i err :
  first_error args 0 = Some (i, err) ->
  exists ev1,
    setErrorWithStack lg ev args w
    = (ev_Err ev1 (attached_error lg err), after_scan i args,
       incErrorConter lg (attached_error lg err) w) /\
    event_errors ev1 = event_errors ev /\
    event_fields ev1 = event_fields ev ++ stack_fields lg err.
Proof.
  intros Hf. unfold setErrorWithStack, attached_error, stack_fields, after_scan.
  rewrite Hf. destruct (stackTrace lg).
  - destruct (StackForLogger err) as [st|].
    + exists (ev_Fields ev st). split; [reflexivity|]. split.
      * unfold ev_Fields. rewrite event_errors_add. simpl. apply app_nil_r.
      * unfold ev_Fields. rewrite event_fields_add. reflexivity.
    + exists (ev_Stack ev). split; [reflexivity|]. split.
      * unfold ev_Stack. rewrite event_errors_add. simpl. apply app_nil_r.
      * unfold ev_Stack. rewrite event_fields_add. reflexivity.
  - exists ev. split; [reflexivity|]. split; [reflexivity|]. simpl.
    rewrite app_nil_r. reflexivity.
Qed.

(** Everything behind the extracted error is still in the slice. *)
Lemma after_scan_keeps_later (args : list any) (i j : nat) (a : any) :
  i < j -> args !! j = Some a -> In a (after_scan i args).
Proof.
  intros Hij Ha. unfold after_scan, append_in_place.
  destruct (1 <=? i)%nat.
  - apply in_or_app. right. apply in_or_app. left.
    apply list_elem_of_In. apply list_elem_of_lookup. exists (j - (i + 1)).
    rewrite lookup_drop. replace (i + 1 + (j - (i + 1))) with j by lia. exact Ha.
  - apply list_elem_of_In. apply list_elem_of_lookup. exists j. exact Ha.
Qed.

Section Extraction.
Context `{Fmt}.

Lemma run_plain lg c w :
  is_plain c = true ->
  exists ev, event_errors ev = [] /\ event_fields ev = [] /\
             run lg c w = (log lg ev (message c) (fields_of c) w, Returned).
Proof.
  intros Hp. destruct c; try discriminate; simpl;
    eexists; (split; [|split; [|reflexivity]]); reflexivity.
Qed.

Lemma log_extracts lg ev msg fields w i err :
  ignored (toIgnore lg) msg = false ->
  1 < length fields ->
  first_error fields 0 = Some (i, err) ->
  exists ev1,
    log lg ev msg fields w
    = ev_Msg (ev_Fields (ev_Err ev1 (attached_error lg err)) (after_scan i fields)) msg
        (incErrorConter lg (attached_error lg err) w) /\
    event_errors ev1 = event_errors ev /\
    event_fields ev1 = event_fields ev ++ stack_fields lg err.
Proof.
  intros Hi Hlen Hf. unfold log. rewrite Hi.
  destruct (Nat.ltb_spec 1 (length fields)) as [_|Hc]; [|lia].
  destruct (setErrorWithStack_some lg ev fields w i err Hf) as [ev1 [Heq [He Hfs]]].
  exists ev1. rewrite Heq. auto.
Qed.
End Extraction.

(** C2, the code against the claim.  A per-severity call [(msg, fields...)]
    that is not suppressed, on a Logger with an error counter, whose field
    list has at least two elements and its first error-typed element [errX]
    at index [i]: the record is emitted with the message, its only error
    attribute has the string form of [errX], the counter goes up by exactly
    one, and every argument behind index [i] (later error-typed ones
    included) is among the record's fields.  So far the code does what the
    claim says.  For the field list [k1; v1; ke; errX; k2; v2] it does not:
    the in-place removal [append(args[:i-1], args[i+1:]...)] keeps the
    length of the slice, so the fields of the record are the structured
    stack of [errX] (present only when stack traces are on and [errX]
    carries one) followed by exactly [k1; v1; k2; v2; k2; v2].  Without
    stack traces the record is handed three pairs, (k1,v1), (k2,v2) and
    (k2,v2) once more, which is never the two-pair list (k1,v1), (k2,v2)
    of the claim. *)
Theorem C2_error_extraction `{Fmt} (lg : Logger) (c : call) (w : World)
    (c0 i : nat) (errX : error) :
  is_plain c = true ->
  errCounter lg = Some c0 ->
  ~ (exists s, In s (toIgnore lg) /\ substring_of s (message c)) ->
  1 < length (fields_of c) ->
  fields_of c !! i = Some (AErr errX) ->
  (forall j a, j < i -> fields_of c !! j = Some a -> as_error a = None) ->
  exists r,
    out (run lg c w).1 = out w ++ [r] /\
    en_emit r = Msg (message c) /\
    map Error_string (entry_errors r) = [Error_string errX] /\
    Count (run lg c w).1 c0 = S (Count w c0) /\
    (forall j a, i < j -> fields_of c !! j = Some a -> In a (entry_fields r)) /\
    (forall k1 v1 ke k2 v2,
       fields_of c = [k1; v1; ke; AErr errX; k2; v2] -> i = 3 ->
       entry_fields r = stack_fields lg errX ++ [k1; v1; k2; v2; k2; v2] /\
       (stackTrace lg = false ->
        pairs (entry_fields r) = [(k1, v1); (k2, v2); (k2, v2)] /\
        pairs (entry_fields r) <> [(k1, v1); (k2, v2)])).
Proof.
  intros Hp Hc Hni Hlen Hi Hbefore.
  apply ignored_false_spec in Hni.
  destruct (run_plain lg c w Hp) as [ev [He [Hfs Hrun]]].
  pose proof (first_error_lookup (fields_of c) 0 i errX Hi Hbefore) as Hf. simpl in Hf.
  destruct (log_extracts lg ev (message c) (fields_of c) w i errX Hni Hlen Hf)
    as [ev1 [Hlog [He1 Hf1]]].
  rewrite Hrun. simpl. rewrite Hlog.
  set (att := attached_error lg errX).
  exists (mkEntry (ev_Fields (ev_Err ev1 att) (after_scan i (fields_of c))) (Msg (message c))).
  assert (Hfields :
    entry_fields (mkEntry (ev_Fields (ev_Err ev1 att) (after_scan i (fields_of c)))
                    (Msg (message c)))
    = stack_fields lg errX ++ after_scan i (fields_of c)).
  { unfold entry_fields, ev_Fields, ev_Err. simpl.
    rewrite !event_fields_add, Hf1, Hfs. simpl. rewrite app_nil_r. reflexivity. }
  split; [|split; [|split; [|split; [|split]]]].
  - unfold ev_Msg. simpl. rewrite out_inc. reflexivity.
  - reflexivity.
  - unfold entry_errors, ev_Fields, ev_Err. simpl.
    rewrite !event_errors_add, He1, He. simpl. unfold att.
    rewrite Error_string_attached. reflexivity.
  - unfold ev_Msg, Count. simpl. apply (Count_inc lg att w c0 Hc).
  - intros j a Hij Ha. rewrite Hfields. apply in_or_app. right.
    apply (after_scan_keeps_later _ i j a Hij Ha).
  - intros k1 v1 ke k2 v2 Heq ->. rewrite Hfields, Heq.
    split; [reflexivity|].
    intros Hst. unfold stack_fields. rewrite Hst. simpl.
    split; [reflexivity | discriminate].
Qed.

Lemma C2_error_extraction_witness :
  exists r,
    out (@run go_fmt sample_logger
           (CInfo "m" [AStr "k1"; AStr "v1"; AStr "error"; AErr errX; AStr "k2"; AStr "v2"])
           empty_world).1 = out empty_world ++ [r] /\
    map Error_string (entry_errors r) = ["boom"] /\
    Count (@run go_fmt sample_logger
             (CInfo "m" [AStr "k1"; AStr "v1"; AStr "error"; AErr errX; AStr "k2"; AStr "v2"])
             empty_world).1 0 = 1 /\
    entry_fields r = [AStr "k1"; AStr "v1"; AStr "k2"; AStr "v2"; AStr "k2"; AStr "v2"] /\
    pairs (entry_fields r)
    = [(AStr "k1", AStr "v1"); (AStr "k2", AStr "v2"); (AStr "k2", AStr "v2")].
Proof.
  destruct (@C2_error_extraction go_fmt sample_logger
              (CInfo "m" [AStr "k1"; AStr "v1"; AStr "error"; AErr errX; AStr "k2"; AStr "v2"])
              empty_world 0 3 errX)
    as [r [Hout [_ [Herr [Hcount [_ Hlist]]]]]].
  - reflexivity.
  - reflexivity.
  - intros [s [[<- | []] [pre [post Hs]]]].
    destruct pre as [|a pre]; [discriminate|].
    destruct pre as [|b pre]; discriminate.
  - simpl. lia.
  - reflexivity.
  - intros j a Hj Ha.
    destruct j as [|[|[|j]]]; [injection Ha as <-; reflexivity ..|lia].
  - destruct (Hlist (AStr "k1") (AStr "v1") (AStr "error") (AStr "k2") (AStr "v2")
                eq_refl eq_refl) as [Hfs Hpairs].
    exists r. split; [exact Hout|]. split; [exact Herr|]. split; [exact Hcount|].
    split; [exact Hfs | exact (proj1 (Hpairs eq_refl))].
Defined.

(** ** Formatted calls *)

Lemma logf_emits lg ev msg args w :
  ignored (toIgnore lg) msg = false ->
  exists ev' e, out (logf lg ev msg args w) = out w ++ [mkEntry ev' e] /\
                (CountByte "%" msg = 0 -> 0 < length args -> e = Msg msg).
Proof.
  intros Hi. unfold logf. rewrite Hi.
  set (N := CountByte "%" msg).
  destruct (Nat.ltb_spec 0 N) as [Hpos|Hzero]; simpl.
  - replace (N =? 0)%nat with false by (symmetry; apply Nat.eqb_neq; lia). simpl.
    destruct (N <=? length args)%nat.
    + pose proof (setErrorWithStack_out lg ev args w) as Ho.
      destruct (setErrorWithStack lg ev args w) as [[e a] w']. simpl in Ho.
      destruct (length (take N a) =? 0)%nat; do 2 eexists;
        (split; [unfold ev_Msg, ev_Msgf; simpl; rewrite Ho; reflexivity | intros; lia]).
    + destruct (length args =? 0)%nat; do 2 eexists;
        (split; [reflexivity | intros; lia]).
  - replace (N =? 0)%nat with true by (symmetry; apply Nat.eqb_eq; lia). simpl.
    destruct (Nat.ltb_spec 0 (length args)) as [Hargs|Hnone].
    + pose proof (setErrorWithStack_out lg ev args w) as Ho.
      destruct (setErrorWithStack lg ev args w) as [[e a] w']. simpl in Ho. simpl.
      do 2 eexists. split; [unfold ev_Msg; simpl; rewrite Ho; reflexivity | reflexivity].
    + replace (length args =? 0)%nat with true by (symmetry; apply Nat.eqb_eq; lia).
      do 2 eexists. split; [reflexivity | intros; lia].
Qed.

(** C3 (as amended).  A formatted call that is not suppressed, whose message
    has N > 0 percent signs and whose argument list has at least N elements,
    none of them error-typed: the record is emitted through [Msgf] with the
    first N arguments as substitutions and the remaining arguments attached
    as fields. *)
Theorem C3_format_split (lg : Logger) (ev : Event) (msg : string) (args : list any)
    (w : World) :
  ~ (exists s, In s (toIgnore lg) /\ substring_of s msg) ->
  0 < CountByte "%" msg ->
  CountByte "%" msg <= length args ->
  (forall a, In a args -> as_error a = None) ->
  logf lg ev msg args w
  = ev_Msgf (ev_Fields ev (drop (CountByte "%" msg) args)) msg
      (take (CountByte "%" msg) args) w.
Proof.
  intros Hni Hpos Hle Hnoerr. apply ignored_false_spec in Hni.
  apply (first_error_none args 0) in Hnoerr.
  unfold logf. rewrite Hni.
  set (N := CountByte "%" msg) in *.
  replace (0 <? N)%nat with true by (symmetry; apply Nat.ltb_lt; lia).
  replace (N <=? length args)%nat with true by (symmetry; apply Nat.leb_le; lia).
  simpl. rewrite (setErrorWithStack_none lg ev args w Hnoerr).
  replace (N =? 0)%nat with false by (symmetry; apply Nat.eqb_neq; lia). simpl.
  replace (length (take N args) =? 0)%nat with false; [reflexivity|].
  symmetry. apply Nat.eqb_neq. rewrite length_take. lia.
Qed.

Lemma C3_format_split_witness :
  @Infof sample_logger "value %d" [AInt 42; AStr "k"; AStr "v"] empty_world
  = ev_Msgf (ev_Fields (newEvent zInfo) [AStr "k"; AStr "v"]) "value %d" [AInt 42]
      empty_world.
Proof.
  unfold Infof.
  apply (C3_format_split sample_logger (zEvent (l sample_logger) zInfo) "value %d"
           [AInt 42; AStr "k"; AStr "v"] empty_world).
  - apply ignored_false_spec. reflexivity.
  - simpl. lia.
  - simpl. lia.
  - intros a [<- | [<- | [<- | []]]]; reflexivity.
Defined.

(** C3 fails as stated: with an error among the trailing arguments, the
    fields of the record are not the remaining arguments; and a call whose
    format string the ignore-list matches attaches nothing to any record. *)
Lemma C3_counterexample :
  (CountByte "%" "v=%d" = 1 /\
   exists r,
     out (Infof sample_logger "v=%d"
            [AInt 42; AStr "error"; AErr errX; AStr "k"; AStr "v"] empty_world) = [r] /\
     entry_fields r = [AStr "k"; AStr "v"; AStr "k"; AStr "v"] /\
     entry_fields r <> drop 1 [AInt 42; AStr "error"; AErr errX; AStr "k"; AStr "v"]) /\
  (CountByte "%" "ignore me %d" = 1 /\
   out (Infof sample_logger "ignore me %d" [AInt 42; AStr "k"; AStr "v"] empty_world) = []).
Proof.
  split; [|split; reflexivity].
  split; [reflexivity|]. eexists. split; [reflexivity|]. split; [reflexivity|].
  simpl. discriminate.
Qed.

(** C4 (as amended).  A formatted call that is not suppressed, whose message
    has no percent sign and whose argument list is not empty: one record is
    emitted through [Msg] with the message as passed, so no substitution
    takes place; when no argument is error-typed, the whole argument list is
    attached as fields. *)
Theorem C4_no_markers (lg : Logger) (ev : Event) (msg : string) (args : list any)
    (w : World) :
  ~ (exists s, In s (toIgnore lg) /\ substring_of s msg) ->
  CountByte "%" msg = 0 ->
  0 < length args ->
  (exists ev', out (logf lg ev msg args w) = out w ++ [mkEntry ev' (Msg msg)]) /\
  ((forall a, In a args -> as_error a = None) ->
   logf lg ev msg args w = ev_Msg (ev_Fields ev args) msg w).
Proof.
  intros Hni Hzero Hlen. apply ignored_false_spec in Hni. split.
  - destruct (logf_emits lg ev msg args w Hni) as [ev' [e [Hout He]]].
    exists ev'. rewrite Hout, (He Hzero Hlen). reflexivity.
  - intros Hnoerr. apply (first_error_none args 0) in Hnoerr.
    unfold logf. rewrite Hni, Hzero. simpl.
    replace (0 <? length args)%nat with true by (symmetry; apply Nat.ltb_lt; lia).
    rewrite (setErrorWithStack_none lg ev args w Hnoerr). reflexivity.
Qed.

Lemma C4_no_markers_witness :
  @Infof sample_logger "started" [AStr "k"; AStr "v"] empty_world
  = ev_Msg (ev_Fields (newEvent zInfo) [AStr "k"; AStr "v"]) "started" empty_world.
Proof.
  unfold Infof.
  apply (C4_no_markers sample_logger (zEvent (l sample_logger) zInfo) "started"
           [AStr "k"; AStr "v"] empty_world).
  - apply ignored_false_spec. reflexivity.
  - reflexivity.
  - simpl. lia.
  - intros a [<- | [<- | []]]; reflexivity.
Defined.

(** C4 fails as stated: with an error among the arguments, the fields of the
    record are not the argument list, the error pair has left it; and a
    message the ignore-list matches is not emitted. *)
Lemma C4_counterexample :
  (CountByte "%" "msg" = 0 /\
   exists r,
     out (Infof sample_logger "msg"
            [AStr "k"; AStr "v"; AStr "error"; AErr errX; AStr "k2"; AStr "v2"]
            empty_world) = [r] /\
     ~ In (AErr errX) (entry_fields r) /\
     entry_fields r
     <> [AStr "k"; AStr "v"; AStr "error"; AErr errX; AStr "k2"; AStr "v2"]) /\
  (CountByte "%" "ignore me" = 0 /\
   out (Infof sample_logger "ignore me" [AStr "k"; AStr "v"] empty_world) = []).
Proof.
  split; [|split; reflexivity].
  split; [reflexivity|]. eexists. split; [reflexivity|]. split.
  - simpl. intros [Hf | [Hf | [Hf | [Hf | [Hf | [Hf | []]]]]]]; discriminate.
  - simpl. discriminate.
Qed.

(** C5 (as amended).  For a formatted call, suppression is decided on the
    message as passed, the format string before any substitution: the call
    emits nothing, and changes nothing, exactly when some ignore-list entry
    is a substring of the format string; otherwise it emits one record. *)
Theorem C5_template_suppression (lg : Logger) (ev : Event) (msg : string)
    (args : list any) (w : World) :
  (out (logf lg ev msg args w) = out w <->
   exists s, In s (toIgnore lg) /\ substring_of s msg) /\
  ((exists s, In s (toIgnore lg) /\ substring_of s msg) -> logf lg ev msg args w = w) /\
  (~ (exists s, In s (toIgnore lg) /\ substring_of s msg) ->
   exists r, out (logf lg ev msg args w) = out w ++ [r]).
Proof.
  assert (Hemit : ~ (exists s, In s (toIgnore lg) /\ substring_of s msg) ->
                  exists r, out (logf lg ev msg args w) = out w ++ [r]).
  { intros Hn. apply ignored_false_spec in Hn.
    destruct (logf_emits lg ev msg args w Hn) as [ev' [e [Hout _]]]. eauto. }
  split; [|split; [|exact Hemit]].
  - split.
    + intros Hsame. destruct (ignored (toIgnore lg) msg) eqn:Hi.
      * apply ignored_spec. exact Hi.
      * exfalso. apply ignored_false_spec in Hi. destruct (Hemit Hi) as [r Hr].
        rewrite Hr in Hsame. apply (f_equal length) in Hsame.
        rewrite length_app in Hsame. simpl in Hsame. lia.
    + intros Hs. apply ignored_spec in Hs. rewrite logf_ignored by exact Hs. reflexivity.
  - intros Hs. apply ignored_spec in Hs. apply logf_ignored. exact Hs.
Qed.

Lemma C5_template_suppression_witness :
  Infof sample_logger "do ignore me %d" [AInt 1] empty_world = empty_world.
Proof.
  unfold Infof.
  apply (C5_template_suppression sample_logger (zEvent (l sample_logger) zInfo)
           "do ignore me %d" [AInt 1] empty_world).
  exists "ignore me". split; [left; reflexivity | exists "do ", " %d"; reflexivity].
Defined.

(** C5 fails as stated: the rendered message contains an ignore-list entry,
    and the record is emitted all the same. *)
Lemma C5_counterexample :
  exists r,
    out (Infof value_logger "value %d" [AInt 42] empty_world) = [r] /\
    @rendered go_fmt r = "value 42" /\
    In "value 42" (toIgnore value_logger) /\
    substring_of "value 42" (@rendered go_fmt r).
Proof.
  eexists. split; [reflexivity|]. split; [reflexivity|]. split; [left; reflexivity|].
  exists "", "". reflexivity.
Qed.

(** ** The Config builder *)

(** [WithWriter] never changes what the receiver's own slice shows. *)
Lemma WithWriter_receiver_unchanged growcap (c : Config) (x : Writer) (st : Store) :
  (forall a, s_ptr (Writers c) = Some a -> a < next_addr st) ->
  view (WithWriter growcap c x st).2 (Writers c) = view st (Writers c).
Proof.
  intros Hfresh. unfold WithWriter, go_append.
  destruct (s_len (Writers c) <? s_cap (Writers c))%nat.
  - destruct (s_ptr (Writers c)) as [a|] eqn:Hp; [|reflexivity].
    simpl. unfold view. rewrite Hp. simpl. rewrite lookup_insert_eq. simpl.
    rewrite drop_insert_ge by lia.
    rewrite take_insert_ge by lia. reflexivity.
  - simpl. unfold view at 1. destruct (s_ptr (Writers c)) as [a|] eqn:Hp.
    + simpl. rewrite lookup_insert_ne by (specialize (Hfresh a eq_refl); lia).
      unfold view. rewrite Hp. reflexivity.
    + unfold view. rewrite Hp. reflexivity.
Qed.

(** The writers a fresh chain of [WithWriter] calls builds, with the
    runtime's doubling: three appends leave capacity four, and two further
    appends to the same three-element [Config] share the fourth slot. *)
Example WithWriter_chain_shares :
  let b1 := WithWriter double_growcap (NewConfig nil_slice) Discard (mkStore ∅ 0) in
  let b2 := WithWriter double_growcap b1.1 Stderr b1.2 in
  let b3 := WithWriter double_growcap b2.1 (Buffer 1) b2.2 in
  let r1 := WithWriter double_growcap b3.1 (Buffer 2) b3.2 in
  let r2 := WithWriter double_growcap b3.1 (Buffer 3) r1.2 in
  s_cap (Writers b3.1) = 4 /\
  view r1.2 (Writers r1.1) = [Discard; Stderr; Buffer 1; Buffer 2] /\
  view r2.2 (Writers r1.1) = [Discard; Stderr; Buffer 1; Buffer 3].
Proof. vm_compute. repeat split. Qed.

(** C6, the code at the failing input.  Two [WithWriter] calls on the same
    base [Config] whose writer slice has spare capacity: the receiver keeps
    showing its one writer, but the second call overwrites the writer the
    first call's result holds. *)
Theorem C6_WithWriter_shares_array (growcap : nat -> nat -> nat) :
  let r1 := WithWriter growcap spare_base Stderr spare_store in
  let r2 := WithWriter growcap spare_base (Buffer 7) r1.2 in
  view spare_store (Writers spare_base) = [Discard] /\
  view r1.2 (Writers r1.1) = [Discard; Stderr] /\
  view r2.2 (Writers r2.1) = [Discard; Buffer 7] /\
  view r2.2 (Writers r1.1) = [Discard; Buffer 7] /\
  view r2.2 (Writers spare_base) = [Discard].
Proof. vm_compute. repeat split. Qed.

(** ** Construction *)

(** C7.  With a backend whose parser knows the level "info", and a
    [Config] whose writer slice fits its array: [New] panics with "cannot
    parse level=..." when the level string is not empty and the parser
    rejects it; with an empty level string it returns an initialised Logger
    at the level of "info"; with a level string the parser accepts it
    returns an initialised Logger at that level. *)
Theorem C7_New_level `{Backend} (cfg : Config) (fields : list any) (st : Store)
    (g : zGlobals) (info : zLevel) :
  ParseLevel InfoLevel = Some info ->
  valid_slice st (Writers cfg) ->
  (Level cfg <> "" -> ParseLevel (Level cfg) = None ->
   (New cfg fields st g).2 = Panics ("cannot parse level=" +:+ Level cfg)) /\
  (Level cfg = "" ->
   exists lg, (New cfg fields st g).2 = Ok lg /\
              z_level (l lg) = info /\ inited lg = true) /\
  (forall lv, Level cfg <> "" -> ParseLevel (Level cfg) = Some lv ->
   exists lg, (New cfg fields st g).2 = Ok lg /\
              z_level (l lg) = lv /\ inited lg = true).
Proof.
  intros Hinfo Hvalid.
  assert (Hfirst : exists w0,
    (if bool_decide (s_len (Writers cfg) = 0) || bool_decide (Level cfg = DisabledLevel)
     then [Discard] else view st (Writers cfg)) !! 0 = Some w0).
  { destruct (bool_decide (s_len (Writers cfg) = 0)) eqn:Hlen; simpl.
    - exists Discard. reflexivity.
    - destruct (bool_decide (Level cfg = DisabledLevel)); [exists Discard; reflexivity|].
      apply bool_decide_eq_false in Hlen. apply lookup_lt_is_Some.
      unfold view. rewrite length_take, length_drop.
      destruct Hvalid as [Hcap Hle]. lia. }
  destruct Hfirst as [w0 Hw0].
  unfold New. split; [|split].
  - intros Hne Hnone. rewrite bool_decide_eq_false_2 by exact Hne.
    rewrite Hnone. reflexivity.
  - intros Hempty. rewrite (bool_decide_eq_true_2 _ Hempty), Hinfo, Hw0. simpl.
    eexists. split; [reflexivity|]. destruct (Hook cfg); split; reflexivity.
  - intros lv Hne Hsome. rewrite bool_decide_eq_false_2 by exact Hne.
    rewrite Hsome, Hw0. simpl.
    eexists. split; [reflexivity|]. destruct (Hook cfg); split; reflexivity.
Qed.

Lemma C7_New_level_witness :
  (@New names_backend (WithLevel (NewConfig nil_slice) "verbose") [] (mkStore ∅ 0)
     (mkGlobals "" false)).2
  = Panics "cannot parse level=verbose".
Proof.
  apply (@C7_New_level names_backend (WithLevel (NewConfig nil_slice) "verbose") []
           (mkStore ∅ 0) (mkGlobals "" false) zInfo).
  - reflexivity.
  - split; simpl; lia.
  - discriminate.
  - reflexivity.
Defined.

(** ** Fatal calls *)

Lemma incErrorConter_incs lg err w :
  exists more, incs (incErrorConter lg err w) = incs w ++ more.
Proof.
  unfold incErrorConter. destruct (errCounter lg).
  - eexists. reflexivity.
  - exists []. rewrite app_nil_r. reflexivity.
Qed.

Lemma setErrorWithStack_shape lg ev args w :
  (exists more, incs (setErrorWithStack lg ev args w).2 = incs w ++ more) /\
  ev_level (setErrorWithStack lg ev args w).1.1 = ev_level ev.
Proof.
  unfold setErrorWithStack. destruct (first_error args 0) as [[i err]|].
  - destruct (stackTrace lg); [destruct (StackForLogger err)|]; simpl;
      (split; [apply incErrorConter_incs | reflexivity]).
  - split; [exists []; rewrite app_nil_r|]; reflexivity.
Qed.

Lemma log_shape lg ev msg fields w :
  (exists more, incs (log lg ev msg fields w) = incs w ++ more) /\
  (ignored (toIgnore lg) msg = false ->
   exists ev', out (log lg ev msg fields w) = out w ++ [mkEntry ev' (Msg msg)] /\
               ev_level ev' = ev_level ev).
Proof.
  unfold log. destruct (ignored (toIgnore lg) msg).
  - split; [exists []; rewrite app_nil_r; reflexivity | discriminate].
  - destruct (1 <? length fields)%nat.
    + pose proof (setErrorWithStack_shape lg ev fields w) as [Hincs Hlevel].
      pose proof (setErrorWithStack_out lg ev fields w) as Hout.
      destruct (setErrorWithStack lg ev fields w) as [[ev1 fields1] w1].
      simpl in *. split; [exact Hincs|]. intros _.
      eexists. split; [rewrite Hout; reflexivity | exact Hlevel].
    + split; [exists []; rewrite app_nil_r; reflexivity|]. intros _.
      eexists. split; reflexivity.
Qed.

(** C8.  Every Fatal-level call ends the process with exit code 1; on a
    Logger with an error counter, its first effect is one [Inc] of that
    counter with a synthesized error whose text is the call's formatted
    message; and it hands the record to [log] at fatal level, which emits it
    unless the ignore-list matches the message. *)
Theorem C8_fatal `{Fmt} (lg : Logger) (c : call) (w : World) :
  is_fatal c = true ->
  (run lg c w).2 = Exited 1 /\
  (forall c0, errCounter lg = Some c0 ->
     (exists e more,
        incs (run lg c w).1 = incs w ++ (c0, e) :: more /\
        Error_string e = formatted_message c) /\
     S (Count w c0) <= Count (run lg c w).1 c0) /\
  (~ (exists s, In s (toIgnore lg) /\ substring_of s (message c)) ->
   exists r, out (run lg c w).1 = out w ++ [r] /\
             ev_level (en_event r) = zFatal /\
             en_emit r = Msg (message c)).
Proof.
  intros Hf.
  assert (Hgen : forall err fields,
    let w2 := log lg (zEvent (l lg) zFatal) (message c) fields
                (incErrorConter lg err w) in
    (forall c0, errCounter lg = Some c0 ->
       (exists e more, incs w2 = incs w ++ (c0, e) :: more /\ e = err) /\
       S (Count w c0) <= Count w2 c0) /\
    (~ (exists s, In s (toIgnore lg) /\ substring_of s (message c)) ->
     exists r, out w2 = out w ++ [r] /\ ev_level (en_event r) = zFatal /\
               en_emit r = Msg (message c))).
  { intros err fields w2.
    destruct (log_shape lg (zEvent (l lg) zFatal) (message c) fields
                (incErrorConter lg err w)) as [[more Hincs] Hemit].
    fold w2 in Hincs, Hemit. split.
    - intros c0 Hc. rewrite (incs_inc lg err w c0 Hc) in Hincs.
      rewrite <- app_assoc in Hincs. simpl in Hincs. split.
      + exists err, more. split; [exact Hincs | reflexivity].
      + unfold Count. rewrite Hincs, filter_app, length_app.
        rewrite filter_cons_True by reflexivity. simpl. lia.
    - intros Hni. apply ignored_false_spec in Hni.
      destruct (Hemit Hni) as [ev' [Hout Hlevel]]. rewrite out_inc in Hout.
      eexists. split; [exact Hout|]. split; [exact Hlevel | reflexivity]. }
  destruct c; try discriminate; simpl.
  - destruct (Hgen (errors_New (Sprint v)) []) as [Hc Hr]. split; [reflexivity|].
    split; [|exact Hr]. intros c0 H0. destruct (Hc c0 H0) as [[e [more [Hi ->]]] Hn].
    split; [exists (errors_New (Sprint v)), more; split; [exact Hi | reflexivity] | exact Hn].
  - destruct (Hgen (fmt_Errorf format args) args) as [Hc Hr]. split; [reflexivity|].
    split; [|exact Hr]. intros c0 H0. destruct (Hc c0 H0) as [[e [more [Hi ->]]] Hn].
    split; [exists (fmt_Errorf format args), more; split; [exact Hi | reflexivity]
           | exact Hn].
  - destruct (Hgen (errors_New (Sprintln v)) []) as [Hc Hr]. split; [reflexivity|].
    split; [|exact Hr]. intros c0 H0. destruct (Hc c0 H0) as [[e [more [Hi ->]]] Hn].
    split; [exists (errors_New (Sprintln v)), more; split; [exact Hi | reflexivity]
           | exact Hn].
Qed.

Lemma C8_fatal_witness :
  is_fatal (CFatalf "cannot start: %s" [AStr "port in use"]) = true /\
  (@run go_fmt sample_logger (CFatalf "cannot start: %s" [AStr "port in use"])
     empty_world).2 = Exited 1.
Proof.
  split; [reflexivity|].
  apply (@C8_fatal go_fmt sample_logger (CFatalf "cannot start: %s" [AStr "port in use"])
           empty_world).
  reflexivity.
Defined.

(** ** A nil error, a lone field *)

(** C9 (as amended).  [Err] with a nil error and a message the ignore-list
    does not match emits one record with that message at error level, for
    every field list; when the field list has fewer than two elements or no
    error-typed element, the record carries no error attribute and the
    counter is not touched. *)
Theorem C9_nil_error (lg : Logger) (msg : string) (fields : list any) (w : World) :
  ~ (exists s, In s (toIgnore lg) /\ substring_of s msg) ->
  (exists r, out (Err lg None msg fields w) = out w ++ [r] /\
             en_emit r = Msg msg /\ ev_level (en_event r) = zError) /\
  (length fields <= 1 \/ (forall a, In a fields -> as_error a = None) ->
   exists r, Err lg None msg fields w = mkWorld (out w ++ [r]) (incs w) /\
             en_emit r = Msg msg /\ entry_errors r = []).
Proof.
  intros Hni. apply ignored_false_spec in Hni.
  assert (Hscan : setErrorWithStack lg (zEvent (l lg) zError) [any_of_error None] w
                  = (zEvent (l lg) zError, [ANil], w)) by reflexivity.
  unfold Err. rewrite Hscan. split.
  - destruct (log_shape lg (zEvent (l lg) zError) msg fields w) as [_ Hemit].
    destruct (Hemit Hni) as [ev' [Hout Hlevel]].
    eexists. split; [exact Hout|]. split; [reflexivity | exact Hlevel].
  - intros Hfields. unfold log. rewrite Hni.
    destruct (Nat.ltb_spec 1 (length fields)) as [Hlong|Hshort].
    + destruct Hfields as [Hle | Hnoerr]; [lia|].
      apply (first_error_none fields 0) in Hnoerr.
      rewrite (setErrorWithStack_none _ _ _ _ Hnoerr).
      eexists. split; [reflexivity|]. split; reflexivity.
    + eexists. split; [reflexivity|]. split; reflexivity.
Qed.

Lemma C9_nil_error_witness :
  exists r, Err sample_logger None "cannot handle" [AStr "k"; AStr "v"] empty_world
            = mkWorld (out empty_world ++ [r]) (incs empty_world) /\
            en_emit r = Msg "cannot handle" /\ entry_errors r = [].
Proof.
  apply (C9_nil_error sample_logger "cannot handle" [AStr "k"; AStr "v"] empty_world).
  - apply ignored_false_spec. reflexivity.
  - right. intros a [<- | [<- | []]]; reflexivity.
Defined.

(** C9 fails as stated: with an error among the fields the record of
    [Err(nil, ...)] carries that error, and the counter counts it; and a
    message the ignore-list matches is not emitted at all. *)
Lemma C9_counterexample :
  (exists r,
     out (Err sample_logger None "x" [AStr "error"; AErr errX] empty_world) = [r] /\
     entry_errors r = [errX] /\
     Count (Err sample_logger None "x" [AStr "error"; AErr errX] empty_world) 0 = 1) /\
  out (Err sample_logger None "ignore me" [] empty_world) = [].
Proof.
  split; [|reflexivity]. eexists. repeat split.
Qed.

(** C10.  A per-severity call [(msg, field)] with exactly one field argument
    and a message the ignore-list does not match: the record is emitted with
    the message, nothing else changes, and no [Fields] call reaches the
    backend for it; [log] forwards the field list only when it has more than
    one element. *)
Theorem C10_single_field `{Fmt} (lg : Logger) (c : call) (a : any) (w : World) :
  is_plain c = true ->
  fields_of c = [a] ->
  ~ (exists s, In s (toIgnore lg) /\ substring_of s (message c)) ->
  (forall ev, log lg ev (message c) (fields_of c) w = ev_Msg ev (message c) w) /\
  exists ev,
    run lg c w = (mkWorld (out w ++ [mkEntry ev (Msg (message c))]) (incs w), Returned) /\
    (forall fs, ~ In (EvFields fs) (ev_calls ev)) /\
    event_fields ev = [] /\ event_errors ev = [].
Proof.
  intros Hp Hone Hni. apply ignored_false_spec in Hni.
  assert (Hlog : forall ev, log lg ev (message c) (fields_of c) w
                            = ev_Msg ev (message c) w).
  { intros ev. unfold log. rewrite Hni, Hone. reflexivity. }
  split; [exact Hlog|].
  destruct c; try discriminate; simpl in *;
    unfold Trace, Debug, Info, Warn, Error; rewrite Hlog;
    (eexists; split; [reflexivity|]; split; [|split; reflexivity]);
    intros fs; simpl; intuition discriminate.
Qed.

Lemma C10_single_field_witness :
  exists ev,
    @run go_fmt sample_logger (CWarn "disk almost full" [AStr "path"]) empty_world
    = (mkWorld (out empty_world ++ [mkEntry ev (Msg "disk almost full")])
         (incs empty_world), Returned) /\
    event_fields ev = [].
Proof.
  destruct (@C10_single_field go_fmt sample_logger (CWarn "disk almost full" [AStr "path"])
              (AStr "path") empty_world) as [_ [ev [Hrun [_ [Hf _]]]]].
  - reflexivity.
  - reflexivity.
  - apply ignored_false_spec. reflexivity.
  - exists ev. split; [exact Hrun | exact Hf].
Defined.

(** ** The code on further inputs *)

(** [Err] counts its error before [log] looks at the ignore-list, while an
    error among the fields of [Error] is scanned after that check. *)
Example Err_counts_before_suppression :
  Count (Err sample_logger (Some errX) "ignore me" [] empty_world) 0 = 1 /\
  Count (Error sample_logger "ignore me" [AStr "error"; AErr errX] empty_world) 0 = 0.
Proof. split; reflexivity. Qed.

(** The in-place removal leaves the last two slots of the slice as they
    were: the pair behind the error is forwarded twice. *)
Example Info_forwards_tail_twice :
  out (Info sample_logger "m"
         [AStr "k1"; AStr "v1"; AStr "error"; AErr errX; AStr "k2"; AStr "v2"] empty_world)
  = [mkEntry (mkEvent zInfo
                [EvErr errX;
                 EvFields [AStr "k1"; AStr "v1"; AStr "k2"; AStr "v2"; AStr "k2"; AStr "v2"]])
       (Msg "m")].
Proof. reflexivity. Qed.

(** An error in the last position is attached and stays among the fields. *)
Example Info_keeps_last_error :
  out (Info sample_logger "m" [AStr "k1"; AStr "v1"; AStr "error"; AErr errX] empty_world)
  = [mkEntry (mkEvent zInfo
                [EvErr errX; EvFields [AStr "k1"; AStr "v1"; AStr "error"; AErr errX]])
       (Msg "m")].
Proof. reflexivity. Qed.

(** The scan runs over the format arguments too: an error in the second
    position moves the trailing fields into the substitution slots. *)
Example Infof_shifts_format_args :
  out (Infof sample_logger "a=%s err=%v" [AStr "a"; AErr errX; AStr "k"; AStr "v"]
         empty_world)
  = [mkEntry (mkEvent zInfo [EvErr errX; EvFields [AStr "k"; AStr "v"]])
       (Msgf "a=%s err=%v" [AStr "k"; AStr "v"])].
Proof. reflexivity. Qed.

(** [Fatalf] hands the format string to [log] unformatted, with the
    arguments as fields; only the synthesized error is formatted. *)
Example Fatalf_logs_format_string :
  @run go_fmt sample_logger (CFatalf "cannot start: %s" [AStr "port in use"]) empty_world
  = (mkWorld [mkEntry (mkEvent zFatal []) (Msg "cannot start: %s")]
       [(0, ErrNew "cannot start: port in use")], Exited 1).
Proof. reflexivity. Qed.

(** * Further properties of the code *)

(** ** What one call adds to the world *)

Lemma suppressed_true lg msg : suppressed lg msg <-> ignored (toIgnore lg) msg = true.
Proof. unfold suppressed. symmetry. apply ignored_spec. Qed.

Lemma suppressed_false lg msg : ~ suppressed lg msg <-> ignored (toIgnore lg) msg = false.
Proof. unfold suppressed. symmetry. apply ignored_false_spec. Qed.

Lemma world_eta (w : World) : w = mkWorld (out w) (incs w ++ []).
Proof. destruct w. simpl. rewrite app_nil_r. reflexivity. Qed.

Lemma incErrorConter_world lg err w :
  exists more,
    incErrorConter lg err w = mkWorld (out w) (incs w ++ more) /\
    length more <= 1 /\ (forall p, In p more -> errCounter lg = Some p.1).
Proof.
  unfold incErrorConter. destruct (errCounter lg) as [c|] eqn:Hc.
  - exists [(c, err)]. split; [reflexivity|]. split; [simpl; lia|].
    intros p [<- | []]. reflexivity.
  - exists []. split; [apply world_eta|]. split; [simpl; lia | intros p []].
Qed.

Lemma setErrorWithStack_world lg ev args w :
  exists more,
    (setErrorWithStack lg ev args w).2 = mkWorld (out w) (incs w ++ more) /\
    length more <= 1 /\ (forall p, In p more -> errCounter lg = Some p.1) /\
    ev_level (setErrorWithStack lg ev args w).1.1 = ev_level ev.
Proof.
  unfold setErrorWithStack. destruct (first_error args 0) as [[i err]|].
  - destruct (stackTrace lg); [destruct (StackForLogger err)|]; simpl;
      match goal with
      | |- context [incErrorConter lg ?e w] =>
          destruct (incErrorConter_world lg e w) as [more [Hw [Hlen Hown]]];
          exists more; rewrite Hw; auto
      end.
  - exists []. simpl. split; [apply world_eta|]. split; [lia|]. split; [intros p [] | reflexivity].
Qed.

(** [log] on a message it does not suppress: one record at the level of the
    event, and at most one [Inc], on the Logger's own counter. *)
Lemma log_world lg ev msg fields w :
  ignored (toIgnore lg) msg = false ->
  exists ev' more,
    log lg ev msg fields w = mkWorld (out w ++ [mkEntry ev' (Msg msg)]) (incs w ++ more) /\
    ev_level ev' = ev_level ev /\
    length more <= 1 /\ (forall p, In p more -> errCounter lg = Some p.1).
Proof.
  intros Hi. unfold log. rewrite Hi. destruct (1 <? length fields)%nat.
  - destruct (setErrorWithStack_world lg ev fields w) as [more [Hw [Hlen [Hown Hlv]]]].
    destruct (setErrorWithStack lg ev fields w) as [[ev1 fields1] w1]. simpl in *.
    exists (ev_Fields ev1 fields1), more. rewrite Hw. unfold ev_Msg. simpl. auto.
  - exists ev, []. unfold ev_Msg. rewrite app_nil_r. simpl.
    split; [reflexivity|]. split; [reflexivity|]. split; [lia | intros p []].
Qed.

Lemma logf_world lg ev msg args w :
  ignored (toIgnore lg) msg = false ->
  exists ev' e more,
    logf lg ev msg args w = mkWorld (out w ++ [mkEntry ev' e]) (incs w ++ more) /\
    ev_level ev' = ev_level ev /\
    length more <= 1 /\ (forall p, In p more -> errCounter lg = Some p.1).
Proof.
  intros Hi. unfold logf. rewrite Hi.
  set (N := CountByte "%" msg).
  assert (Hplain : forall e a,
    exists ev' e' more,
      (if (length a =? 0)%nat then ev_Msg e msg w else ev_Msgf e msg a w)
      = mkWorld (out w ++ [mkEntry ev' e']) (incs w ++ more) /\
      ev_level ev' = ev_level e /\
      length more <= 1 /\ (forall p, In p more -> errCounter lg = Some p.1)).
  { intros e a. exists e. destruct (length a =? 0)%nat; eexists; exists [];
      unfold ev_Msg, ev_Msgf; rewrite app_nil_r;
      (split; [reflexivity|]; split; [reflexivity|]; split; [simpl; lia | intros p []]). }
  destruct (Nat.ltb_spec 0 N) as [Hpos|Hzero]; simpl.
  - replace (N =? 0)%nat with false by (symmetry; apply Nat.eqb_neq; lia). simpl.
    destruct (N <=? length args)%nat; [|apply Hplain].
    destruct (setErrorWithStack_world lg ev args w) as [more [Hw [Hlen [Hown Hlv]]]].
    destruct (setErrorWithStack lg ev args w) as [[e a] w']. simpl in *. subst w'.
    destruct (length (take N a) =? 0)%nat; do 2 eexists; exists more;
      unfold ev_Msg, ev_Msgf; simpl; auto.
  - replace (N =? 0)%nat with true by (symmetry; apply Nat.eqb_eq; lia). simpl.
    destruct (0 <? length args)%nat; [|apply Hplain].
    destruct (setErrorWithStack_world lg ev args w) as [more [Hw [Hlen [Hown Hlv]]]].
    destruct (setErrorWithStack lg ev args w) as [[e a] w']. simpl in *. subst w'.
    do 2 eexists. exists more. unfold ev_Msg. simpl. auto.
Qed.

Lemma log_after_inc lg ev msg fields err w :
  ignored (toIgnore lg) msg = false ->
  exists ev' more,
    log lg ev msg fields (incErrorConter lg err w)
    = mkWorld (out w ++ [mkEntry ev' (Msg msg)]) (incs w ++ more) /\
    ev_level ev' = ev_level ev /\
    length more <= 2 /\ (forall p, In p more -> errCounter lg = Some p.1).
Proof.
  intros Hi.
  destruct (incErrorConter_world lg err w) as [m1 [Hw1 [Hl1 Ho1]]]. rewrite Hw1.
  destruct (log_world lg ev msg fields (mkWorld (out w) (incs w ++ m1)) Hi)
    as [ev' [m2 [Hw2 [Hlv [Hl2 Ho2]]]]].
  exists ev', (m1 ++ m2). rewrite Hw2. simpl. rewrite <- app_assoc.
  split; [reflexivity|]. split; [exact Hlv|]. split; [rewrite length_app; lia|].
  intros p Hp. apply in_app_or in Hp. destruct Hp; auto.
Qed.

Section PerCall.
Context `{Fmt}.

(** A call that is not suppressed (and is not [Print()] or [Log()] without
    arguments). *)
Lemma run_world lg c w :
  ignored (toIgnore lg) (message c) = false ->
  empty_print c = false ->
  exists ev' e more,
    (run lg c w).1 = mkWorld (out w ++ [mkEntry ev' e]) (incs w ++ more) /\
    ev_level ev' = level_of c /\
    length more <= max_incs c /\ (forall p, In p more -> errCounter lg = Some p.1).
Proof.
  intros Hi He.
  assert (Hlog : forall ev fields w0,
    exists ev' e more,
      log lg ev (message c) fields w0
      = mkWorld (out w0 ++ [mkEntry ev' e]) (incs w0 ++ more) /\
      ev_level ev' = ev_level ev /\
      length more <= 1 /\ (forall p, In p more -> errCounter lg = Some p.1)).
  { intros ev fields w0.
    destruct (log_world lg ev (message c) fields w0 Hi) as [ev' [more Hrest]].
    exists ev', (Msg (message c)), more. exact Hrest. }
  assert (Hinc : forall ev fields err,
    exists ev' e more,
      log lg ev (message c) fields (incErrorConter lg err w)
      = mkWorld (out w ++ [mkEntry ev' e]) (incs w ++ more) /\
      ev_level ev' = ev_level ev /\
      length more <= 2 /\ (forall p, In p more -> errCounter lg = Some p.1)).
  { intros ev fields err.
    destruct (log_after_inc lg ev (message c) fields err w Hi) as [ev' [more Hrest]].
    exists ev', (Msg (message c)), more. exact Hrest. }
  assert (Hinc1 : forall ev err,
    exists ev' e more,
      log lg ev (message c) [] (incErrorConter lg err w)
      = mkWorld (out w ++ [mkEntry ev' e]) (incs w ++ more) /\
      ev_level ev' = ev_level ev /\
      length more <= 1 /\ (forall p, In p more -> errCounter lg = Some p.1)).
  { intros ev err. unfold log. rewrite Hi. simpl.
    destruct (incErrorConter_world lg err w) as [m1 [Hw1 [Hl1 Ho1]]]. rewrite Hw1.
    exists ev, (Msg (message c)), m1. unfold ev_Msg. simpl. auto. }
  destruct c; simpl in *;
    unfold Trace, Tracef, Debug, Debugf, Info, Infof, Warn, Warnf, Error, Errorf,
      ErrStack, PrintStack, Printf, Println, Log, Print;
    try (apply Hlog);
    try (match goal with
         | |- context [logf lg ?ev ?m ?a ?w0] => exact (logf_world lg ev m a w0 Hi)
         end);
    try (apply Hinc); try (apply Hinc1).
  - (* Err *)
    unfold Err.
    destruct (setErrorWithStack_world lg (zEvent (l lg) zError) [any_of_error err] w)
      as [m1 [Hw1 [Hl1 [Ho1 Hlv1]]]].
    destruct (setErrorWithStack lg (zEvent (l lg) zError) [any_of_error err] w)
      as [[ev1 a1] w1]. simpl in *. subst w1.
    destruct (log_world lg ev1 msg fields (mkWorld (out w) (incs w ++ m1)) Hi)
      as [ev' [m2 [Hw2 [Hlv [Hl2 Ho2]]]]].
    exists ev', (Msg msg), (m1 ++ m2). rewrite Hw2. simpl. rewrite <- app_assoc.
    split; [reflexivity|]. split; [congruence|]. split; [rewrite length_app; lia|].
    intros p Hp. apply in_app_or in Hp. destruct Hp; auto.
  - (* Print *)
    destruct v as [|a v]; [discriminate|]. simpl. apply Hlog.
  - (* Log *)
    destruct v as [|a v]; [discriminate|]. simpl. apply Hlog.
Qed.

(** A call that is suppressed, or [Print()]/[Log()] without arguments. *)
Lemma run_quiet lg c w :
  ignored (toIgnore lg) (message c) = true \/ empty_print c = true ->
  exists more,
    (run lg c w).1 = mkWorld (out w) (incs w ++ more) /\
    length more <= max_incs c /\ (forall p, In p more -> errCounter lg = Some p.1).
Proof.
  intros Hq.
  assert (Hnone : exists more : list (nat * error),
    w = mkWorld (out w) (incs w ++ more) /\
    length more <= 1 /\ (forall p, In p more -> errCounter lg = Some p.1)).
  { exists []. split; [apply world_eta|]. split; [simpl; lia | intros p []]. }
  assert (Hweak : forall n, 1 <= n ->
    (exists more : list (nat * error),
       w = mkWorld (out w) (incs w ++ more) /\
       length more <= n /\ (forall p, In p more -> errCounter lg = Some p.1))).
  { intros n Hn. destruct Hnone as [more [Hw [Hl Ho]]]. exists more.
    split; [exact Hw|]. split; [lia | exact Ho]. }
  destruct Hq as [Hi | He].
  - destruct c; simpl in *;
      unfold Trace, Tracef, Debug, Debugf, Info, Infof, Warn, Warnf, Error, Errorf,
        ErrStack, PrintStack, Printf, Println, Log, Print, Err;
      rewrite ?log_ignored, ?logf_ignored by exact Hi;
      try (exact Hnone).
    + destruct (setErrorWithStack_world lg (zEvent (l lg) zError) [any_of_error err] w)
        as [m1 [Hw1 [Hl1 [Ho1 _]]]].
      destruct (setErrorWithStack lg (zEvent (l lg) zError) [any_of_error err] w)
        as [[ev1 a1] w1]. simpl in *. rewrite log_ignored by exact Hi.
      exists m1. split; [exact Hw1|]. split; [lia | exact Ho1].
    + apply incErrorConter_world.
    + destruct (incErrorConter_world lg (fmt_Errorf format args) w) as [m [Hw [Hl Ho]]].
      exists m. split; [exact Hw|]. split; [lia | exact Ho].
    + apply incErrorConter_world.
    + apply incErrorConter_world.
    + destruct (incErrorConter_world lg (fmt_Errorf format args) w) as [m [Hw [Hl Ho]]].
      exists m. split; [exact Hw|]. split; [lia | exact Ho].
    + apply incErrorConter_world.
    + destruct (length v =? 0)%nat; rewrite ?log_ignored by exact Hi; exact Hnone.
    + destruct (length v =? 0)%nat; rewrite ?log_ignored by exact Hi; exact Hnone.
  - destruct c; try discriminate; destruct v; try discriminate; simpl; exact Hnone.
Qed.
End PerCall.

Lemma filter_other_counter (more : list (nat * error)) (own : option nat) (c0 : nat) :
  (forall p, In p more -> own = Some p.1) -> own <> Some c0 ->
  filter (fun p : nat * error => p.1 = c0) more = [].
Proof.
  intros Hown Hne. induction more as [|p more IH]; [reflexivity|].
  rewrite filter_cons_False.
  - apply IH. intros q Hq. apply Hown. right. exact Hq.
  - intros Hp. apply Hne. rewrite (Hown p) by (left; reflexivity). f_equal. exact Hp.
Qed.

(** X1.  Every logging call emits at most one record and never alters the
    records emitted before: nothing when its message is suppressed (or for
    [Print()]/[Log()] without arguments), otherwise exactly one record, at
    the level of the call. *)
Theorem call_emits_at_most_one `{Fmt} (lg : Logger) (c : call) (w : World) :
  (suppressed lg (message c) \/ empty_print c = true -> out (run lg c w).1 = out w) /\
  (~ suppressed lg (message c) -> empty_print c = false ->
   exists r, out (run lg c w).1 = out w ++ [r] /\ ev_level (en_event r) = level_of c).
Proof.
  split.
  - intros Hq. destruct (run_quiet lg c w) as [more [Hw _]].
    + destruct Hq as [Hs | He]; [left; apply suppressed_true; exact Hs | right; exact He].
    + rewrite Hw. reflexivity.
  - intros Hn He. apply suppressed_false in Hn.
    destruct (run_world lg c w Hn He) as [ev' [e [more [Hw [Hlv _]]]]].
    exists (mkEntry ev' e). rewrite Hw. split; [reflexivity | exact Hlv].
Qed.

Lemma call_emits_at_most_one_witness :
  exists r,
    out (@run go_fmt sample_logger (CPanic [AStr "lost"; AStr " connection"]) empty_world).1
    = out empty_world ++ [r] /\
    ev_level (en_event r) = zFatal.
Proof.
  apply (@call_emits_at_most_one go_fmt sample_logger
           (CPanic [AStr "lost"; AStr " connection"]) empty_world).
  - apply suppressed_false. reflexivity.
  - reflexivity.
Defined.

Lemma Contains_empty (s : string) : Contains s "" = true.
Proof. destruct s; reflexivity. Qed.

(** X2.  An ignore-list that contains the empty string silences the Logger:
    no call emits a record.  An empty ignore-list suppresses nothing. *)
Theorem empty_entry_silences `{Fmt} (lg : Logger) (c : call) (w : World) :
  (In "" (toIgnore lg) -> out (run lg c w).1 = out w) /\
  (toIgnore lg = [] -> empty_print c = false ->
   exists r, out (run lg c w).1 = out w ++ [r]).
Proof.
  split.
  - intros Hin. apply (proj1 (call_emits_at_most_one lg c w)). left.
    exists "". split; [exact Hin|]. exists "", (message c). reflexivity.
  - intros Hnil He.
    destruct (proj2 (call_emits_at_most_one lg c w)) as [r [Hr _]]; [|exact He|eauto].
    intros [s [Hin _]]. rewrite Hnil in Hin. destruct Hin.
Qed.

Lemma empty_entry_silences_witness :
  out (@run go_fmt (LoggerOps.WithToIgnore sample_logger ["x"; ""])
         (CError "disk failure" [AStr "k"; AStr "v"]) empty_world).1
  = out empty_world.
Proof.
  apply (@empty_entry_silences go_fmt (LoggerOps.WithToIgnore sample_logger ["x"; ""])
           (CError "disk failure" [AStr "k"; AStr "v"]) empty_world).
  right. left. reflexivity.
Defined.

Lemma run_incs_shape `{Fmt} (lg : Logger) (c : call) (w : World) :
  exists o more,
    (run lg c w).1 = mkWorld o (incs w ++ more) /\
    length more <= max_incs c /\ (forall p, In p more -> errCounter lg = Some p.1).
Proof.
  destruct (ignored (toIgnore lg) (message c)) eqn:Hi.
  - destruct (run_quiet lg c w (or_introl Hi)) as [more Hrest]. eauto.
  - destruct (empty_print c) eqn:He.
    + destruct (run_quiet lg c w (or_intror He)) as [more Hrest]. eauto.
    + destruct (run_world lg c w Hi He) as [ev' [e [more [Hw [_ Hrest]]]]]. eauto.
Qed.

Lemma run_without_counter `{Fmt} (lg : Logger) (c : call) (w : World) :
  errCounter lg = None -> incs (run lg c w).1 = incs w.
Proof.
  intros Hnone. destruct (run_incs_shape lg c w) as [o [more [Hw [_ Hown]]]].
  rewrite Hw. simpl. destruct more as [|p more]; [apply app_nil_r|].
  specialize (Hown p (or_introl eq_refl)). congruence.
Qed.

(** X3.  A call only ever adds to the [Inc] log of the Logger's own
    counter: every counter keeps or raises its count, by at most two for
    [Err], [Fatalf] and [Panicf] and by at most one for every other call;
    the count of any other counter stays as it is, and a Logger without a
    counter increments nothing. *)
Theorem call_counts_bounded `{Fmt} (lg : Logger) (c : call) (w : World) :
  (forall c0, Count w c0 <= Count (run lg c w).1 c0 <= Count w c0 + max_incs c) /\
  (forall c0, errCounter lg <> Some c0 -> Count (run lg c w).1 c0 = Count w c0) /\
  (errCounter lg = None -> incs (run lg c w).1 = incs w).
Proof.
  split; [|split; [|apply run_without_counter]].
  - intros c0. destruct (run_incs_shape lg c w) as [o [more [Hw [Hlen Hown]]]].
    rewrite Hw, Count_app.
    pose proof (length_filter (fun p : nat * error => p.1 = c0) more). lia.
  - intros c0 Hne. destruct (run_incs_shape lg c w) as [o [more [Hw [Hlen Hown]]]].
    rewrite Hw, Count_app, (filter_other_counter more _ c0 Hown Hne).
    simpl. lia.
Qed.

(** ** The error scan, in full *)

Lemma first_error_bound (args : list any) (k i : nat) (e : error) :
  first_error args k = Some (i, e) ->
  k <= i /\ i < k + length args /\ args !! (i - k) = Some (AErr e).
Proof.
  revert k. induction args as [|a rest IH]; intros k Hf; [discriminate|].
  simpl in Hf. destruct a as [| | | |e0]; simpl in Hf;
    try (destruct (IH (S k) Hf) as [Hle [Hlt Hlk]]; simpl;
         split; [lia|]; split; [lia|];
         replace (i - k) with (S (i - S k)) by lia; exact Hlk).
  injection Hf as <- <-. simpl. split; [lia|]. split; [lia|].
  rewrite Nat.sub_diag. reflexivity.
Qed.

Lemma first_error_exists (args : list any) (a : any) (e : error) :
  In a args -> as_error a = Some e -> exists i e', first_error args 0 = Some (i, e').
Proof.
  intros Hin Ha. destruct (first_error args 0) as [[i e']|] eqn:Hf; [eauto|].
  pose proof (proj2 (first_error_none args 0) Hf a Hin) as Hnone.
  rewrite Hnone in Ha. discriminate.
Qed.

Lemma after_scan_length (args : list any) (i : nat) :
  i < length args -> length (after_scan i args) = length args.
Proof.
  intros Hi. unfold after_scan, append_in_place.
  destruct (1 <=? i)%nat eqn:Hge; [|reflexivity].
  apply Nat.leb_le in Hge.
  rewrite !length_app, length_take, !length_drop. lia.
Qed.

(** X4.  [log] increments the Logger's counter exactly when it emits a
    record for a field list of at least two elements that holds an
    error-typed element, and then by one; a suppressed message, a field
    list of fewer than two elements, or one without errors leaves every
    counter as it was. *)
Theorem log_counts_iff (lg : Logger) (ev : Event) (msg : string) (fields : list any)
    (w : World) (c0 : nat) :
  errCounter lg = Some c0 ->
  (~ suppressed lg msg -> 1 < length fields ->
   (exists a e, In a fields /\ as_error a = Some e) ->
   Count (log lg ev msg fields w) c0 = S (Count w c0)) /\
  (suppressed lg msg \/ length fields <= 1 \/ (forall a, In a fields -> as_error a = None) ->
   incs (log lg ev msg fields w) = incs w).
Proof.
  intros Hc. split.
  - intros Hn Hlen [a [e [Hin Ha]]]. apply suppressed_false in Hn.
    destruct (first_error_exists fields a e Hin Ha) as [i [e' Hf]].
    destruct (log_extracts lg ev msg fields w i e' Hn Hlen Hf) as [ev1 [Hlog _]].
    rewrite Hlog. unfold ev_Msg, Count. simpl.
    apply (Count_inc lg (attached_error lg e') w c0 Hc).
  - intros Hcases. unfold log. destruct (ignored (toIgnore lg) msg) eqn:Hi; [reflexivity|].
    destruct Hcases as [Hs | [Hshort | Hnoerr]].
    + apply suppressed_true in Hs. congruence.
    + replace (1 <? length fields)%nat with false
        by (symmetry; apply Nat.ltb_ge; exact Hshort).
      reflexivity.
    + apply (first_error_none fields 0) in Hnoerr.
      rewrite (setErrorWithStack_none lg ev fields w Hnoerr).
      destruct (1 <? length fields)%nat; reflexivity.
Qed.

Lemma log_counts_iff_witness :
  Count (log sample_logger (newEvent zWarn) "retrying"
           [AStr "attempt"; AInt 2; AStr "cause"; AErr errX] empty_world) 0
  = S (Count empty_world 0).
Proof.
  apply (log_counts_iff sample_logger (newEvent zWarn) "retrying"
           [AStr "attempt"; AInt 2; AStr "cause"; AErr errX] empty_world 0).
  - reflexivity.
  - apply suppressed_false. reflexivity.
  - simpl. lia.
  - exists (AErr errX), errX. split; [simpl; tauto | reflexivity].
Defined.

(** X5.  What [log] forwards for a field list [pre ++ key :: err :: post]
    whose first error is [err]: the elements before the key, the elements
    behind the error, and then the last two elements of the original list
    once more.  So with nothing behind the error the list is forwarded
    unchanged, the error pair included. *)
Theorem log_forwards (lg : Logger) (ev : Event) (msg : string)
    (pre post : list any) (key : any) (e : error) (w : World) :
  ~ suppressed lg msg ->
  (forall a, In a pre -> as_error a = None) ->
  as_error key = None ->
  exists ev1,
    out (log lg ev msg (pre ++ key :: AErr e :: post) w)
    = out w ++ [mkEntry
                  (ev_Fields (ev_Err ev1 (attached_error lg e))
                     (pre ++ post ++ drop (length post) (key :: AErr e :: post)))
                  (Msg msg)] /\
    event_errors ev1 = event_errors ev /\
    event_fields ev1 = event_fields ev ++ stack_fields lg e /\
    (post = [] ->
     pre ++ post ++ drop (length post) (key :: AErr e :: post) = pre ++ [key; AErr e]).
Proof.
  intros Hn Hpre Hkey. apply suppressed_false in Hn.
  set (args := pre ++ key :: AErr e :: post).
  assert (Hf : first_error args 0 = Some (length pre + 1, e)).
  { apply (first_error_lookup args 0 (length pre + 1) e).
    - unfold args. replace (pre ++ key :: AErr e :: post)
        with ((pre ++ [key]) ++ AErr e :: post) by (rewrite <- app_assoc; reflexivity).
      apply list_lookup_middle. rewrite length_app. simpl. lia.
    - intros j a Hj Ha. unfold args in Ha.
      destruct (Nat.lt_ge_cases j (length pre)) as [Hlt | Hge].
      + rewrite lookup_app_l in Ha by exact Hlt. apply Hpre.
        apply list_elem_of_In. apply (list_elem_of_lookup_2 _ j). exact Ha.
      + rewrite lookup_app_r in Ha by exact Hge.
        replace (j - length pre) with 0 in Ha by lia. simpl in Ha.
        injection Ha as <-. exact Hkey. }
  assert (Hlen : 1 < length args).
  { unfold args. rewrite length_app. simpl. lia. }
  assert (Hafter : after_scan (length pre + 1) args
                   = pre ++ post ++ drop (length post) (key :: AErr e :: post)).
  { unfold after_scan, append_in_place.
    replace (1 <=? length pre + 1)%nat with true by (symmetry; apply Nat.leb_le; lia).
    replace (length pre + 1 - 1) with (length pre) by lia.
    replace (length pre + 1 + 1) with (length pre + 2) by lia.
    unfold args. rewrite take_app_length, !drop_app_add. reflexivity. }
  destruct (log_extracts lg ev msg args w (length pre + 1) e Hn Hlen Hf)
    as [ev1 [Hlog [He1 Hf1]]].
  exists ev1. rewrite Hlog, Hafter. unfold ev_Msg. simpl. rewrite out_inc.
  split; [reflexivity|]. split; [exact He1|]. split; [exact Hf1|].
  intros ->. reflexivity.
Qed.

Lemma log_forwards_witness :
  exists ev1,
    out (log sample_logger (newEvent zInfo) "m"
           ([AStr "k1"; AStr "v1"] ++ AStr "error" :: AErr errX
              :: [AStr "k2"; AStr "v2"; AStr "k3"; AStr "v3"]) empty_world)
    = [mkEntry
         (ev_Fields (ev_Err ev1 errX)
            [AStr "k1"; AStr "v1"; AStr "k2"; AStr "v2"; AStr "k3"; AStr "v3";
             AStr "k3"; AStr "v3"])
         (Msg "m")].
Proof.
  destruct (log_forwards sample_logger (newEvent zInfo) "m" [AStr "k1"; AStr "v1"]
              [AStr "k2"; AStr "v2"; AStr "k3"; AStr "v3"] (AStr "error") errX empty_world)
    as [ev1 [Hout _]].
  - apply suppressed_false. reflexivity.
  - intros a [<- | [<- | []]]; reflexivity.
  - reflexivity.
  - exists ev1. exact Hout.
Defined.

(** X6.  The error scan never changes the length of the slice it is given.
    When the first error sits at index [i], the elements before the key
    (indices below [i-1]) stay in place, and the slice is left exactly as it
    was when the error is the first or the last element; a slice without an
    error is returned untouched, with the event and the world. *)
Theorem scan_keeps_length (lg : Logger) (ev : Event) (args : list any) (w : World) :
  length (setErrorWithStack lg ev args w).1.2 = length args /\
  (forall i e,
     args !! i = Some (AErr e) ->
     (forall j a, j < i -> args !! j = Some a -> as_error a = None) ->
     (forall j, S j < i -> (setErrorWithStack lg ev args w).1.2 !! j = args !! j) /\
     (i = 0 \/ S i = length args -> (setErrorWithStack lg ev args w).1.2 = args)) /\
  ((forall a, In a args -> as_error a = None) ->
   setErrorWithStack lg ev args w = (ev, args, w)).
Proof.
  split; [|split].
  - destruct (first_error args 0) as [[i e]|] eqn:Hf.
    + destruct (setErrorWithStack_some lg ev args w i e Hf) as [ev1 [Heq _]].
      rewrite Heq. simpl. apply after_scan_length.
      destruct (first_error_bound args 0 i e Hf) as [_ [Hlt _]]. exact Hlt.
    + rewrite (setErrorWithStack_none lg ev args w Hf). reflexivity.
  - intros i e Hi Hbefore.
    pose proof (first_error_lookup args 0 i e Hi Hbefore) as Hf. simpl in Hf.
    destruct (setErrorWithStack_some lg ev args w i e Hf) as [ev1 [Heq _]].
    rewrite Heq. simpl.
    assert (Hlt : i < length args) by (apply lookup_lt_Some in Hi; exact Hi).
    unfold after_scan, append_in_place. split.
    + intros j Hj. replace (1 <=? i)%nat with true by (symmetry; apply Nat.leb_le; lia).
      rewrite lookup_app_l by (rewrite length_take; lia).
      apply lookup_take_lt. lia.
    + intros [-> | Hlast]; [reflexivity|].
      destruct (1 <=? i)%nat; [|reflexivity].
      rewrite (drop_ge args (i + 1)) by lia. simpl.
      rewrite Nat.add_0_r. apply take_drop.
  - intros Hnoerr. apply setErrorWithStack_none. apply first_error_none. exact Hnoerr.
Qed.

(** ** The error entry points *)

Lemma Err_scan lg e w c0 :
  errCounter lg = Some c0 ->
  exists ev1,
    setErrorWithStack lg (zEvent (l lg) zError) [any_of_error (Some e)] w
    = (ev_Err ev1 (attached_error lg e), [AErr e],
       mkWorld (out w) (incs w ++ [(c0, attached_error lg e)])) /\
    ev_level ev1 = zError /\
    event_errors ev1 = [] /\ event_fields ev1 = stack_fields lg e.
Proof.
  intros Hc.
  destruct (setErrorWithStack_some lg (zEvent (l lg) zError) [AErr e] w 0 e eq_refl)
    as [ev1 [Heq [He Hf]]].
  pose proof (setErrorWithStack_shape lg (zEvent (l lg) zError) [AErr e] w) as [_ Hlv].
  exists ev1. simpl. rewrite Heq in *. simpl in *.
  unfold incErrorConter. rewrite Hc. split; [reflexivity|]. split; [exact Hlv|].
  split; [exact He | exact Hf].
Qed.

(** X7.  [Err] with a non-nil error, a message that is not suppressed and a
    field list without a second error (fewer than two elements, or no
    error-typed element): one record at error level with the message, whose
    only error attribute is the given error (wrapped by [errors.WithStack]
    when stack traces are on and it has no stack of its own, same text),
    the counter incremented exactly once with it, and the field list
    forwarded as it is when it has at least two elements. *)
Theorem Err_attaches (lg : Logger) (e : error) (msg : string) (fields : list any)
    (w : World) (c0 : nat) :
  errCounter lg = Some c0 ->
  ~ suppressed lg msg ->
  length fields <= 1 \/ (forall a, In a fields -> as_error a = None) ->
  exists r,
    Err lg (Some e) msg fields w
    = mkWorld (out w ++ [r]) (incs w ++ [(c0, attached_error lg e)]) /\
    en_emit r = Msg msg /\
    ev_level (en_event r) = zError /\
    entry_errors r = [attached_error lg e] /\
    Error_string (attached_error lg e) = Error_string e /\
    entry_fields r = stack_fields lg e ++ (if (1 <? length fields)%nat then fields else []).
Proof.
  intros Hc Hn Hfields. apply suppressed_false in Hn.
  destruct (Err_scan lg e w c0 Hc) as [ev1 [Hscan [Hlv [He Hf]]]].
  unfold Err. rewrite Hscan. unfold log. rewrite Hn.
  destruct (Nat.ltb_spec 1 (length fields)) as [Hlong | Hshort].
  - destruct Hfields as [Hle | Hnoerr]; [lia|].
    apply (first_error_none fields 0) in Hnoerr.
    rewrite (setErrorWithStack_none _ _ _ _ Hnoerr).
    eexists. split; [reflexivity|]. split; [reflexivity|]. split; [exact Hlv|].
    unfold entry_errors, entry_fields, ev_Fields, ev_Err. simpl.
    rewrite !event_errors_add, !event_fields_add, He, Hf. simpl.
    rewrite app_nil_r. split; [reflexivity|]. split; [apply Error_string_attached|].
    reflexivity.
  - eexists. split; [reflexivity|]. split; [reflexivity|]. split; [exact Hlv|].
    unfold entry_errors, entry_fields, ev_Err. simpl.
    rewrite !event_errors_add, !event_fields_add, He, Hf. simpl.
    rewrite !app_nil_r. split; [reflexivity|]. split; [apply Error_string_attached|].
    reflexivity.
Qed.

Lemma Err_attaches_witness :
  exists r,
    Err stack_logger (Some errX) "error test" [] empty_world
    = mkWorld (out empty_world ++ [r]) (incs empty_world ++ [(0, ErrWithStack errX)]) /\
    en_emit r = Msg "error test" /\
    entry_errors r = [ErrWithStack errX].
Proof.
  destruct (Err_attaches stack_logger errX "error test" [] empty_world 0)
    as [r [Hw [Hm [_ [He _]]]]].
  - reflexivity.
  - apply suppressed_false. reflexivity.
  - left. simpl. lia.
  - exists r. split; [exact Hw|]. split; [exact Hm | exact He].
Defined.

(** X8.  [Err] attaches and counts its error before [log] looks at the
    ignore-list: with a non-nil error and a suppressed message no record
    is emitted, and the counter is still incremented once. *)
Theorem Err_counts_when_suppressed (lg : Logger) (e : error) (msg : string)
    (fields : list any) (w : World) (c0 : nat) :
  errCounter lg = Some c0 ->
  suppressed lg msg ->
  Err lg (Some e) msg fields w
  = mkWorld (out w) (incs w ++ [(c0, attached_error lg e)]).
Proof.
  intros Hc Hs. apply suppressed_true in Hs.
  destruct (Err_scan lg e w c0 Hc) as [ev1 [Hscan _]].
  unfold Err. rewrite Hscan. apply log_ignored. exact Hs.
Qed.

Lemma Err_counts_when_suppressed_witness :
  Err sample_logger (Some errX) "please ignore me" [AStr "k"; AStr "v"] empty_world
  = mkWorld [] [(0, errX)].
Proof.
  apply (Err_counts_when_suppressed sample_logger errX "please ignore me"
           [AStr "k"; AStr "v"] empty_world 0).
  - reflexivity.
  - apply suppressed_true. reflexivity.
Defined.

(** ** More on formatted calls *)

(** X9.  A formatted call with more percent signs than arguments attaches
    no fields and does not scan for errors: with no arguments the message
    is emitted verbatim through [Msg], otherwise all arguments go to
    [Msgf]; the counter is never touched.  Without arguments the message is
    emitted verbatim whatever it contains. *)
Theorem logf_too_few_args (lg : Logger) (ev : Event) (msg : string) (args : list any)
    (w : World) :
  ~ suppressed lg msg ->
  (length args < CountByte "%" msg ->
   logf lg ev msg args w
   = match args with
     | [] => ev_Msg ev msg w
     | _ :: _ => ev_Msgf ev msg args w
     end) /\
  (args = [] -> logf lg ev msg args w = ev_Msg ev msg w).
Proof.
  intros Hn. apply suppressed_false in Hn. split.
  - intros Hfew. unfold logf. rewrite Hn.
    set (N := CountByte "%" msg) in *.
    replace (N <=? length args)%nat with false by (symmetry; apply Nat.leb_gt; lia).
    replace (N =? 0)%nat with false by (symmetry; apply Nat.eqb_neq; lia).
    rewrite andb_false_r. simpl. destruct args; reflexivity.
  - intros ->. unfold logf. rewrite Hn.
    destruct (CountByte "%" msg); reflexivity.
Qed.

Lemma logf_too_few_args_witness :
  logf sample_logger (newEvent zError) "failed: %v (%d tries)" [AErr errX] empty_world
  = ev_Msgf (newEvent zError) "failed: %v (%d tries)" [AErr errX] empty_world.
Proof.
  apply (logf_too_few_args sample_logger (newEvent zError) "failed: %v (%d tries)"
           [AErr errX] empty_world).
  - apply suppressed_false. reflexivity.
  - simpl. lia.
Defined.

(** X10.  Without percent signs in the message, a formatted call with at
    least two arguments does exactly what the plain call does with the same
    field list.  With a single non-error argument the two differ: [logf]
    forwards the lone argument to the backend, [log] drops it. *)
Theorem logf_without_markers (lg : Logger) (ev : Event) (msg : string) (args : list any)
    (w : World) :
  CountByte "%" msg = 0 ->
  (1 < length args -> logf lg ev msg args w = log lg ev msg args w) /\
  (forall a, args = [a] -> as_error a = None -> ~ suppressed lg msg ->
   logf lg ev msg args w = ev_Msg (ev_Fields ev [a]) msg w /\
   log lg ev msg args w = ev_Msg ev msg w).
Proof.
  intros Hzero. split.
  - intros Hlen. unfold logf, log. destruct (ignored (toIgnore lg) msg); [reflexivity|].
    rewrite Hzero. simpl.
    replace (0 <? length args)%nat with true by (symmetry; apply Nat.ltb_lt; lia).
    replace (1 <? length args)%nat with true by (symmetry; apply Nat.ltb_lt; lia).
    destruct (setErrorWithStack lg ev args w) as [[e a] w']. reflexivity.
  - intros a -> Ha Hn. apply suppressed_false in Hn.
    unfold logf, log. rewrite Hn, Hzero. simpl.
    unfold setErrorWithStack. simpl. rewrite Ha. split; reflexivity.
Qed.

Lemma logf_without_markers_witness :
  logf sample_logger (newEvent zInfo) "started" [AStr "port"; AInt 8080] empty_world
  = log sample_logger (newEvent zInfo) "started" [AStr "port"; AInt 8080] empty_world.
Proof.
  apply (logf_without_markers sample_logger (newEvent zInfo) "started"
           [AStr "port"; AInt 8080] empty_world).
  - reflexivity.
  - simpl. lia.
Defined.

(** ** Panic-level calls and ErrStack *)

(** The common body of the Fatal- and Panic-level calls: count the
    synthesized error, then [log] at fatal level. *)
Lemma count_then_log lg msg fields err w :
  let w2 := log lg (zEvent (l lg) zFatal) msg fields (incErrorConter lg err w) in
  (forall c0, errCounter lg = Some c0 ->
     exists more, incs w2 = incs w ++ (c0, err) :: more) /\
  (~ suppressed lg msg ->
   exists r, out w2 = out w ++ [r] /\ ev_level (en_event r) = zFatal /\
             en_emit r = Msg msg).
Proof.
  intros w2.
  destruct (log_shape lg (zEvent (l lg) zFatal) msg fields (incErrorConter lg err w))
    as [[more Hincs] Hemit].
  fold w2 in Hincs, Hemit. split.
  - intros c0 Hc. rewrite (incs_inc lg err w c0 Hc) in Hincs.
    rewrite <- app_assoc in Hincs. simpl in Hincs. exists more. exact Hincs.
  - intros Hn. apply suppressed_false in Hn.
    destruct (Hemit Hn) as [ev' [Hout Hlevel]]. rewrite out_inc in Hout.
    eexists. split; [exact Hout|]. split; [exact Hlevel | reflexivity].
Qed.

Lemma slice_after_log_same lg ev msg fields w :
  suppressed lg msg \/ length fields <= 1 \/ (forall a, In a fields -> as_error a = None) ->
  slice_after_log lg ev msg fields w = fields.
Proof.
  intros Hcases. unfold slice_after_log.
  destruct (ignored (toIgnore lg) msg) eqn:Hi; [reflexivity|].
  destruct (Nat.ltb_spec 1 (length fields)) as [Hlong | Hshort]; [|reflexivity].
  destruct Hcases as [Hs | [Hle | Hnoerr]].
  - apply suppressed_true in Hs. congruence.
  - lia.
  - apply (first_error_none fields 0) in Hnoerr.
    rewrite (setErrorWithStack_none _ _ _ _ Hnoerr). reflexivity.
Qed.

(** X11.  Every Panic-level call panics, never returns and never exits.
    [Panic] and [Panicln] panic with the text they log; [Panicf] panics with
    the formatted text whenever [log] left its arguments alone (message
    suppressed, fewer than two arguments, or no error-typed argument).  On
    a Logger with a counter the first effect is one [Inc] with a
    synthesized error carrying the formatted text, and the record is handed
    to [log] at fatal level with the message as passed. *)
Theorem panic_calls `{Fmt} (lg : Logger) (c : call) (w : World) :
  is_panic c = true ->
  (exists v, (run lg c w).2 = Panicked v) /\
  (is_Panicf c = false \/ suppressed lg (message c) \/ length (fields_of c) <= 1 \/
   (forall a, In a (fields_of c) -> as_error a = None) ->
   (run lg c w).2 = Panicked (formatted_message c)) /\
  (forall c0, errCounter lg = Some c0 ->
     exists e more,
       incs (run lg c w).1 = incs w ++ (c0, e) :: more /\
       Error_string e = formatted_message c) /\
  (~ suppressed lg (message c) ->
   exists r, out (run lg c w).1 = out w ++ [r] /\
             ev_level (en_event r) = zFatal /\
             en_emit r = Msg (message c)).
Proof.
  intros Hp. destruct c; try discriminate; simpl.
  - destruct (count_then_log lg (Sprint v) [] (errors_New (Sprint v)) w) as [Hc Hr].
    split; [eauto|]. split; [reflexivity|]. split; [|exact Hr].
    intros c0 H0. destruct (Hc c0 H0) as [more Hm]. eauto.
  - destruct (count_then_log lg format args (fmt_Errorf format args) w) as [Hc Hr].
    split; [eauto|]. split; [|split; [|exact Hr]].
    + intros [Hf | Hcases]; [discriminate|].
      rewrite slice_after_log_same by exact Hcases. reflexivity.
    + intros c0 H0. destruct (Hc c0 H0) as [more Hm]. eauto.
  - destruct (count_then_log lg (Sprintln v) [] (errors_New (Sprintln v)) w) as [Hc Hr].
    split; [eauto|]. split; [reflexivity|]. split; [|exact Hr].
    intros c0 H0. destruct (Hc c0 H0) as [more Hm]. eauto.
Qed.

Lemma panic_calls_witness :
  (@run go_fmt sample_logger (CPanicf "cannot bind %s" [AStr ":8080"]) empty_world).2
  = Panicked "cannot bind :8080".
Proof.
  apply (@panic_calls go_fmt sample_logger (CPanicf "cannot bind %s" [AStr ":8080"])
           empty_world).
  - reflexivity.
  - right. right. left. simpl. lia.
Defined.

(** [Panicf] formats its panic value after [log] has rewritten the argument
    slice: with an error in second position the trailing fields take the
    place of the format arguments. *)
Example Panicf_panics_with_scanned_args `{Fmt} :
  (run sample_logger (CPanicf "a=%s err=%v" [AStr "a"; AErr errX; AStr "k"; AStr "v"])
     empty_world).2
  = Panicked (Sprintf "a=%s err=%v" [AStr "k"; AStr "v"; AStr "k"; AStr "v"]).
Proof. reflexivity. Qed.

(** X12.  [ErrStack] logs the "%+v" rendering of its error as the message
    of a record at error level; the error is wrapped by [errors.WithStack]
    unless it carries a stack of its own.  It attaches no error attribute
    and does not touch the counter, as long as the field list brings no
    error of its own (fewer than two elements, or no error-typed element). *)
Theorem ErrStack_logs_text `{Fmt} (lg : Logger) (err : option error) (fields : list any)
    (w : World) :
  ~ suppressed lg (message (CErrStack err fields)) ->
  length fields <= 1 \/ (forall a, In a fields -> as_error a = None) ->
  (exists r,
     ErrStack lg err fields w = mkWorld (out w ++ [r]) (incs w) /\
     en_emit r = Msg (message (CErrStack err fields)) /\
     ev_level (en_event r) = zError /\
     entry_errors r = []) /\
  (forall e, err = Some e ->
     message (CErrStack err fields)
     = Sprintf "%+v" [AErr (match StackForLogger e with
                            | Some _ => e
                            | None => ErrWithStack e
                            end)]) /\
  (err = None -> message (CErrStack err fields) = Sprintf "%+v" [ANil]).
Proof.
  intros Hn Hfields. apply suppressed_false in Hn. split; [|split].
  - unfold ErrStack. simpl in Hn. unfold log. rewrite Hn.
    destruct (Nat.ltb_spec 1 (length fields)) as [Hlong | Hshort].
    + destruct Hfields as [Hle | Hnoerr]; [lia|].
      apply (first_error_none fields 0) in Hnoerr.
      rewrite (setErrorWithStack_none _ _ _ _ Hnoerr).
      eexists. split; [reflexivity|]. split; [reflexivity|]. split; reflexivity.
    + eexists. split; [reflexivity|]. split; [reflexivity|]. split; reflexivity.
  - intros e ->. simpl. destruct (StackForLogger e); reflexivity.
  - intros ->. reflexivity.
Qed.

Lemma ErrStack_logs_text_witness :
  exists r,
    @ErrStack go_fmt sample_logger (Some errX) [AStr "additional"; AStr "info"] empty_world
    = mkWorld (out empty_world ++ [r]) (incs empty_world) /\
    en_emit r = Msg (@Sprintf go_fmt "%+v" [AErr (ErrWithStack errX)]) /\
    entry_errors r = [].
Proof.
  destruct (@ErrStack_logs_text go_fmt sample_logger (Some errX)
              [AStr "additional"; AStr "info"] empty_world)
    as [[r [Hw [Hm [_ He]]]] _].
  - apply suppressed_false. reflexivity.
  - right. intros a [<- | [<- | []]]; reflexivity.
  - exists r. split; [exact Hw|]. split; [exact Hm | exact He].
Defined.

(** ** Writers of a Config *)

Lemma valid_view_length (st : Store) (s : slice) :
  valid_slice st s -> length (view st s) = s_len s.
Proof.
  intros [Hcap Hlen]. unfold view. rewrite length_take, length_drop. lia.
Qed.

Lemma valid_array_present (st : Store) (s : slice) :
  valid_slice st s -> 0 < s_cap s ->
  exists a arr, s_ptr s = Some a /\ arrays st !! a = Some arr /\
                array_at st (s_ptr s) = arr.
Proof.
  intros [Hcap Hlen] Hpos. destruct (s_ptr s) as [a|] eqn:Hp; simpl in Hcap; [|lia].
  destruct (arrays st !! a) as [arr|] eqn:Ha; simpl in Hcap; [|lia].
  exists a, arr. simpl. rewrite Ha. auto.
Qed.

Lemma go_append_in_place growcap (s : slice) (x : Writer) (st : Store) a arr :
  s_len s < s_cap s -> s_ptr s = Some a -> array_at st (s_ptr s) = arr ->
  go_append growcap s x st
  = (mkSlice (Some a) (s_off s) (S (s_len s)) (s_cap s),
     mkStore (<[a := <[s_off s + s_len s := x]> arr]> (arrays st)) (next_addr st)).
Proof.
  intros Hlt Hp Harr. unfold go_append.
  replace (s_len s <? s_cap s)%nat with true by (symmetry; apply Nat.ltb_lt; exact Hlt).
  rewrite Harr, Hp. reflexivity.
Qed.

Lemma go_append_realloc growcap (s : slice) (x : Writer) (st : Store) :
  s_cap s <= s_len s ->
  go_append growcap s x st
  = (mkSlice (Some (next_addr st)) 0 (S (s_len s)) (growcap (s_cap s) (S (s_len s))),
     mkStore (<[next_addr st :=
                  view st s ++ [x] ++
                  replicate (growcap (s_cap s) (S (s_len s)) - S (s_len s)) WNil]>
                (arrays st))
       (S (next_addr st))).
Proof.
  intros Hge. unfold go_append.
  replace (s_len s <? s_cap s)%nat with false by (symmetry; apply Nat.ltb_ge; exact Hge).
  reflexivity.
Qed.

(** [append] on a valid slice in a well-kept store. *)
Lemma go_append_spec growcap (s : slice) (x : Writer) (st : Store) :
  valid_slice st s -> store_ok st ->
  let r := go_append growcap s x st in
  view r.2 r.1 = view st s ++ [x] /\
  view r.2 s = view st s /\
  store_ok r.2 /\
  valid_slice r.2 s /\
  ((forall old n, n <= growcap old n) -> valid_slice r.2 r.1).
Proof.
  intros Hvalid Hok.
  pose proof Hvalid as [Hcap Hlen].
  destruct (Nat.lt_ge_cases (s_len s) (s_cap s)) as [Hlt | Hge].
  - (* spare capacity: the shared array is written *)
    destruct (valid_array_present st s Hvalid) as [a [arr [Hp [Ha Harr]]]]; [lia|].
    rewrite (go_append_in_place growcap s x st a arr Hlt Hp Harr). simpl.
    rewrite Harr in Hcap.
    assert (Hnew : forall p, p = Some a ->
      array_at (mkStore (<[a := <[s_off s + s_len s := x]> arr]> (arrays st))
                  (next_addr st)) p
      = <[s_off s + s_len s := x]> arr).
    { intros p ->. simpl. rewrite lookup_insert_eq. reflexivity. }
    split; [|split; [|split; [|split]]].
    + unfold view. simpl. rewrite lookup_insert_eq, Harr. simpl.
      rewrite drop_insert_ge by lia.
      replace (s_off s + s_len s - s_off s) with (s_len s) by lia.
      rewrite (take_S_r _ _ x).
      * rewrite take_insert_ge by lia. reflexivity.
      * apply list_lookup_insert_eq. rewrite length_drop. lia.
    + unfold view. rewrite (Hnew _ Hp), Harr.
      rewrite drop_insert_ge by lia. rewrite take_insert_ge by lia. reflexivity.
    + intros a' Hsome. simpl in *. destruct (decide (a = a')) as [<- | Hne].
      * apply Hok. rewrite Ha. eauto.
      * rewrite lookup_insert_ne in Hsome by exact Hne. apply Hok. exact Hsome.
    + split; [|exact Hlen]. rewrite (Hnew _ Hp), length_insert. exact Hcap.
    + intros _. split; simpl.
      * rewrite lookup_insert_eq. simpl. rewrite length_insert. exact Hcap.
      * lia.
  - (* no capacity left: a new array *)
    rewrite (go_append_realloc growcap s x st Hge). simpl.
    pose proof (valid_view_length st s Hvalid) as Hvl.
    set (newcap := growcap (s_cap s) (S (s_len s))).
    assert (Hold : forall arr' p, p <> Some (next_addr st) ->
      array_at (mkStore (<[next_addr st := arr']> (arrays st)) (S (next_addr st))) p
      = array_at st p).
    { intros arr' [a|] Hne; simpl; [|reflexivity].
      rewrite lookup_insert_ne by congruence. reflexivity. }
    assert (Hfree : arrays st !! next_addr st = None).
    { destruct (arrays st !! next_addr st) eqn:Hn; [|reflexivity].
      assert (next_addr st < next_addr st) by (apply Hok; rewrite Hn; eauto). lia. }
    assert (Hdangling : s_ptr s = Some (next_addr st) -> s_off s + s_cap s = 0).
    { intros Heq. rewrite Heq in Hcap. simpl in Hcap. rewrite Hfree in Hcap.
      simpl in Hcap. lia. }
    split; [|split; [|split; [|split]]].
    + unfold view at 1. simpl. rewrite lookup_insert_eq. simpl.
      rewrite drop_0, take_app, take_ge by lia.
      replace (S (s_len s) - length (view st s)) with 1 by lia. reflexivity.
    + destruct (decide (s_ptr s = Some (next_addr st))) as [Heq | Hne].
      * specialize (Hdangling Heq). unfold view.
        replace (s_len s) with 0 by lia. reflexivity.
      * unfold view. rewrite (Hold _ _ Hne). reflexivity.
    + intros a' Hsome. simpl in *. destruct (decide (next_addr st = a')) as [<- | Hne].
      * lia.
      * rewrite lookup_insert_ne in Hsome by exact Hne.
        specialize (Hok a' Hsome). lia.
    + split; [|exact Hlen].
      destruct (decide (s_ptr s = Some (next_addr st))) as [Heq | Hne].
      * specialize (Hdangling Heq). lia.
      * rewrite (Hold _ _ Hne). exact Hcap.
    + intros Hfits. split; simpl.
      * rewrite lookup_insert_eq. simpl. rewrite length_app. simpl.
        rewrite length_replicate, Hvl. lia.
      * apply Hfits.
Qed.

(** X13.  On a [Config] whose writer slice is valid, [WithWriter] returns a
    [Config] that shows the receiver's writers followed by the new one and
    differs from the receiver in nothing else; the receiver keeps showing
    what it showed; the store stays well kept and both slices stay valid
    (the new one provided the runtime grows a slice enough to hold the
    appended element). *)
Theorem WithWriter_appends (growcap : nat -> nat -> nat) (c : Config) (x : Writer)
    (st : Store) :
  valid_slice st (Writers c) ->
  store_ok st ->
  let r := WithWriter growcap c x st in
  view r.2 (Writers r.1) = view st (Writers c) ++ [x] /\
  view r.2 (Writers c) = view st (Writers c) /\
  set_Writers r.1 (Writers c) = c /\
  store_ok r.2 /\
  valid_slice r.2 (Writers c) /\
  ((forall old n, n <= growcap old n) -> valid_slice r.2 (Writers r.1)).
Proof.
  intros Hvalid Hok. unfold WithWriter.
  pose proof (go_append_spec growcap (Writers c) x st Hvalid Hok) as Hspec.
  destruct (go_append growcap (Writers c) x st) as [ws st'].
  simpl in *. destruct Hspec as [Hview [Hrecv [Hok' [Hv Hv']]]].
  split; [exact Hview|]. split; [exact Hrecv|]. split; [destruct c; reflexivity|].
  split; [exact Hok'|]. split; [exact Hv | exact Hv'].
Qed.

Lemma WithWriter_appends_witness :
  view (WithWriter double_growcap spare_base Stderr spare_store).2
    (Writers (WithWriter double_growcap spare_base Stderr spare_store).1)
  = view spare_store (Writers spare_base) ++ [Stderr].
Proof.
  apply (WithWriter_appends double_growcap spare_base Stderr spare_store).
  - split; simpl; vm_compute; lia.
  - intros a [arr Ha]. destruct a as [|a]; [simpl; lia|].
    unfold spare_store in Ha. simpl in Ha.
    rewrite lookup_singleton_ne in Ha by lia. discriminate.
Defined.

Lemma double_growcap_fits (old n : nat) : n <= double_growcap old n.
Proof.
  unfold double_growcap. destruct (Nat.ltb_spec (old + old) n); lia.
Qed.

(** X14.  A chain of [WithWriter] calls appends the writers in call order:
    started from a valid [Config] in a well-kept store, with a runtime that
    grows slices enough, the result shows the writers of the start followed
    by the appended ones; started from [NewConfig()] it shows exactly the
    appended ones. *)
Theorem with_writers_in_order (growcap : nat -> nat -> nat) (c : Config)
    (ws : list Writer) (st : Store) :
  (forall old n, n <= growcap old n) ->
  valid_slice st (Writers c) ->
  store_ok st ->
  let r := with_writers growcap c ws st in
  view r.2 (Writers r.1) = view st (Writers c) ++ ws /\
  (Writers c = nil_slice -> view r.2 (Writers r.1) = ws) /\
  valid_slice r.2 (Writers r.1) /\
  store_ok r.2.
Proof.
  intros Hfits. revert c st.
  assert (Hmain : forall ws c st,
    valid_slice st (Writers c) -> store_ok st ->
    view (with_writers growcap c ws st).2 (Writers (with_writers growcap c ws st).1)
    = view st (Writers c) ++ ws /\
    valid_slice (with_writers growcap c ws st).2 (Writers (with_writers growcap c ws st).1) /\
    store_ok (with_writers growcap c ws st).2).
  { clear ws. induction ws as [|x rest IH]; intros c st Hvalid Hok.
    - simpl. rewrite app_nil_r. auto.
    - simpl.
      pose proof (WithWriter_appends growcap c x st Hvalid Hok) as Hstep.
      destruct (WithWriter growcap c x st) as [c1 st1]. simpl in Hstep.
      destruct Hstep as [Hview [_ [_ [Hok1 [_ Hv1]]]]].
      destruct (IH c1 st1 (Hv1 Hfits) Hok1) as [Hviews [Hvalids Hoks]].
      rewrite Hviews, Hview, <- app_assoc. auto. }
  intros c st Hvalid Hok. simpl.
  destruct (Hmain ws c st Hvalid Hok) as [Hview [Hv Hok']].
  split; [exact Hview|]. split; [|split; [exact Hv | exact Hok']].
  intros Hnil. rewrite Hview. unfold view. rewrite Hnil. reflexivity.
Qed.

Lemma with_writers_in_order_witness :
  view (with_writers double_growcap (NewConfig nil_slice)
          [Discard; Stderr; Buffer 1; Buffer 2; Buffer 3] (mkStore ∅ 0)).2
    (Writers (with_writers double_growcap (NewConfig nil_slice)
                [Discard; Stderr; Buffer 1; Buffer 2; Buffer 3] (mkStore ∅ 0)).1)
  = [Discard; Stderr; Buffer 1; Buffer 2; Buffer 3].
Proof.
  apply (with_writers_in_order double_growcap (NewConfig nil_slice)
           [Discard; Stderr; Buffer 1; Buffer 2; Buffer 3] (mkStore ∅ 0)).
  - apply double_growcap_fits.
  - split; simpl; lia.
  - intros a [arr Ha]. simpl in Ha. rewrite lookup_empty in Ha. discriminate.
  - reflexivity.
Defined.

(** ** What New builds *)

Section NewFacts.
Context `{Backend}.

(** The branches of [New] on success, with the writer list it settled on. *)
Lemma New_Ok_inv cfg fields st g g' lg :
  New cfg fields st g = (g', Ok lg) ->
  exists level output0 target,
    let writers :=
      if bool_decide (s_len (Writers cfg) = 0) || bool_decide (Level cfg = DisabledLevel)
      then [Discard] else view st (Writers cfg) in
    ParseLevel (if bool_decide (Level cfg = "") then InfoLevel else Level cfg) = Some level /\
    writers !! 0 = Some output0 /\
    target = (if (1 <? length writers)%nat then MultiLevelWriter writers else output0) /\
    z_w (l lg)
    = (if negb (NoDiode cfg) then
         DiodeWriter target
           (if (DiodeSize cfg =? 0)%Z then DefaultDiodeSize else DiodeSize cfg)
           (if UseDiodeWaiter cfg then 0%Z
            else if (DiodePollingInterval cfg =? 0)%Z then DefaultDiodePollingInterval
                 else DiodePollingInterval cfg)
           (default AlertDefault (DiodeAlertFunc cfg))
       else target) /\
    z_level (l lg) = level /\
    z_context (l lg) = fields /\
    toIgnore lg = ToIgnore cfg /\
    errCounter lg = cfg_ErrorCounter cfg /\
    stackTrace lg = StackTrace cfg /\
    inited lg = true /\
    g' = mkGlobals
           (if bool_decide (TimeFieldFormat cfg = "") then time_RFC3339
            else TimeFieldFormat cfg) true.
Proof.
  unfold New. intros Hnew.
  destruct (ParseLevel (if bool_decide (Level cfg = "") then InfoLevel else Level cfg))
    as [level|]; [|discriminate].
  destruct ((if bool_decide (s_len (Writers cfg) = 0) ||
                bool_decide (Level cfg = DisabledLevel)
             then [Discard] else view st (Writers cfg)) !! 0) as [output0|] eqn:H0;
    [|discriminate].
  injection Hnew as <- <-.
  exists level, output0. eexists. cbv zeta.
  split; [reflexivity|]. split; [first [exact H0 | reflexivity]|]. split; [reflexivity|].
  destruct (Hook cfg); simpl; repeat split; reflexivity.
Qed.

(** X15.  Where a Logger built by [New] writes.  With the level "disabled"
    or without writers it writes to [io.Discard], whatever writers the
    [Config] holds; otherwise to its one writer, or to a multi-writer over
    all its writers in order.  The target is wrapped in a diode unless
    [NoDiode] is set. *)
Theorem New_output_target (cfg : Config) (fields : list any) (st : Store)
    (g g' : zGlobals) (lg : Logger) :
  New cfg fields st g = (g', Ok lg) ->
  exists target,
    (NoDiode cfg = true -> z_w (l lg) = target) /\
    (NoDiode cfg = false ->
     exists size poll alert, z_w (l lg) = DiodeWriter target size poll alert) /\
    (Level cfg = DisabledLevel \/ s_len (Writers cfg) = 0 -> target = Discard) /\
    (Level cfg <> DisabledLevel ->
     forall w0, view st (Writers cfg) = [w0] -> target = w0) /\
    (Level cfg <> DisabledLevel -> 1 < length (view st (Writers cfg)) ->
     target = MultiLevelWriter (view st (Writers cfg))).
Proof.
  intros Hnew.
  destruct (New_Ok_inv cfg fields st g g' lg Hnew)
    as [level [output0 [target [_ [H0 [Ht [Hw _]]]]]]].
  exists target. split; [|split; [|split; [|split]]].
  - intros Hnd. rewrite Hw, Hnd. reflexivity.
  - intros Hnd. rewrite Hw, Hnd. simpl. eauto.
  - intros Hcase.
    assert (Hb : bool_decide (s_len (Writers cfg) = 0) ||
                 bool_decide (Level cfg = DisabledLevel) = true).
    { destruct Hcase as [Hd | Hz].
      - rewrite (bool_decide_eq_true_2 _ Hd). apply orb_true_r.
      - rewrite (bool_decide_eq_true_2 _ Hz). reflexivity. }
    rewrite Hb in H0, Ht. simpl in H0, Ht. congruence.
  - intros Hne w0 Hview.
    assert (Hlen : s_len (Writers cfg) <> 0).
    { intros Hz. unfold view in Hview. rewrite Hz in Hview. discriminate. }
    rewrite (bool_decide_eq_false_2 _ Hlen), (bool_decide_eq_false_2 _ Hne) in H0, Ht.
    simpl in H0, Ht. rewrite Hview in H0, Ht. simpl in H0, Ht. congruence.
  - intros Hne Hmany.
    assert (Hlen : s_len (Writers cfg) <> 0).
    { intros Hz. unfold view in Hmany. rewrite Hz in Hmany. simpl in Hmany. lia. }
    rewrite (bool_decide_eq_false_2 _ Hlen), (bool_decide_eq_false_2 _ Hne) in Ht.
    simpl in Ht.
    replace (1 <? length (view st (Writers cfg)))%nat with true in Ht
      by (symmetry; apply Nat.ltb_lt; exact Hmany).
    exact Ht.
Qed.

(** X16.  The diode [New] sets up, unless [NoDiode] is set: its size is
    never 0 (a size of 0 in the [Config] becomes 1000, any other size is
    passed on as it is), and its polling interval is 0 exactly when
    [UseDiodeWaiter] is set (otherwise the configured interval, or 10ms for
    a configured 0). *)
Theorem New_diode_parameters (cfg : Config) (fields : list any) (st : Store)
    (g g' : zGlobals) (lg : Logger) :
  New cfg fields st g = (g', Ok lg) ->
  NoDiode cfg = false ->
  exists target size poll alert,
    z_w (l lg) = DiodeWriter target size poll alert /\
    size <> 0%Z /\
    (DiodeSize cfg <> 0%Z -> size = DiodeSize cfg) /\
    (DiodeSize cfg = 0%Z -> size = 1000%Z) /\
    (poll = 0%Z <-> UseDiodeWaiter cfg = true) /\
    (UseDiodeWaiter cfg = false -> DiodePollingInterval cfg <> 0%Z ->
     poll = DiodePollingInterval cfg).
Proof.
  intros Hnew Hnd.
  destruct (New_Ok_inv cfg fields st g g' lg Hnew)
    as [level [output0 [target [_ [_ [_ [Hw _]]]]]]].
  rewrite Hnd in Hw. simpl in Hw.
  do 4 eexists. split; [exact Hw|].
  unfold DefaultDiodeSize, DefaultDiodePollingInterval.
  destruct (Z.eqb_spec (DiodeSize cfg) 0) as [Hs | Hs];
    destruct (UseDiodeWaiter cfg);
    destruct (Z.eqb_spec (DiodePollingInterval cfg) 0) as [Hp | Hp];
    repeat split; intros; try congruence; try lia.
Qed.

(** X17.  [New] assigns the backend's time format before it parses the
    level: also when it panics, the package variable holds the configured
    format, or RFC 3339 for an empty one, and so is never empty.  The stack
    marshaler is installed only when [New] succeeds. *)
Theorem New_globals (cfg : Config) (fields : list any) (st : Store) (g : zGlobals) :
  g_TimeFieldFormat (New cfg fields st g).1
  = (if bool_decide (TimeFieldFormat cfg = "") then time_RFC3339 else TimeFieldFormat cfg) /\
  g_TimeFieldFormat (New cfg fields st g).1 <> "" /\
  (forall v, (New cfg fields st g).2 = Panics v ->
   g_ErrorStackMarshaler (New cfg fields st g).1 = g_ErrorStackMarshaler g) /\
  (forall lg, (New cfg fields st g).2 = Ok lg ->
   g_ErrorStackMarshaler (New cfg fields st g).1 = true).
Proof.
  assert (Hfmt : g_TimeFieldFormat (New cfg fields st g).1
                 = (if bool_decide (TimeFieldFormat cfg = "") then time_RFC3339
                    else TimeFieldFormat cfg)).
  { unfold New. destruct (ParseLevel _); [|reflexivity].
    destruct (_ !! 0); reflexivity. }
  split; [exact Hfmt|]. split; [|split].
  - rewrite Hfmt. case_bool_decide; [discriminate | assumption].
  - unfold New. destruct (ParseLevel _); [|reflexivity].
    destruct (_ !! 0); [discriminate | reflexivity].
  - unfold New. destruct (ParseLevel _); [|discriminate].
    destruct (_ !! 0); [reflexivity | discriminate].
Qed.
End NewFacts.

Lemma New_output_target_witness :
  @New names_backend disabled_config [] stderr_store start_globals
  = (rfc_globals, Ok disabled_logger) /\
  z_w (l disabled_logger) = Discard.
Proof.
  assert (Hnew : @New names_backend disabled_config [] stderr_store start_globals
                 = (rfc_globals, Ok disabled_logger)) by reflexivity.
  split; [exact Hnew|].
  destruct (@New_output_target names_backend disabled_config [] stderr_store start_globals
              rfc_globals disabled_logger Hnew) as [target [Hnd [_ [Hd _]]]].
  rewrite (Hnd eq_refl). apply Hd. left. reflexivity.
Defined.

Lemma New_diode_parameters_witness :
  @New names_backend waiter_config [] (mkStore ∅ 0) start_globals
  = (rfc_globals, Ok waiter_logger) /\
  exists target size poll alert,
    z_w (l waiter_logger) = DiodeWriter target size poll alert /\ size <> 0%Z.
Proof.
  assert (Hnew : @New names_backend waiter_config [] (mkStore ∅ 0) start_globals
                 = (rfc_globals, Ok waiter_logger)) by reflexivity.
  split; [exact Hnew|].
  destruct (@New_diode_parameters names_backend waiter_config [] (mkStore ∅ 0)
              start_globals rfc_globals waiter_logger Hnew eq_refl)
    as [target [size [poll [alert [Hw [Hs _]]]]]].
  exists target, size, poll, alert. split; [exact Hw | exact Hs].
Defined.

(** X18.  A Logger built by [New] acts on the [Config] it was built from:
    every call whose message contains an entry of [ToIgnore] emits nothing;
    [Err] with an error raises the configured counter by one, and without a
    configured counter no call increments anything; the fields given to
    [New] are the Logger's context, and the Logger is initialised. *)
Theorem New_applies_config `{Backend} `{Fmt} (cfg : Config) (fields : list any)
    (st : Store) (g g' : zGlobals) (lg : Logger) :
  New cfg fields st g = (g', Ok lg) ->
  (forall c w, (exists s, In s (ToIgnore cfg) /\ substring_of s (message c)) ->
               out (run lg c w).1 = out w) /\
  (forall e msg w c0, cfg_ErrorCounter cfg = Some c0 ->
                      Count (Err lg (Some e) msg [] w) c0 = S (Count w c0)) /\
  (cfg_ErrorCounter cfg = None -> forall c w, incs (run lg c w).1 = incs w) /\
  z_context (l lg) = fields /\
  LoggerOps.NotInited lg = false.
Proof.
  intros Hnew.
  destruct (New_Ok_inv cfg fields st g g' lg Hnew)
    as [level [output0 [target [_ [_ [_ [_ [_ [Hctx [Hig [Hec [_ [Hin _]]]]]]]]]]]]].
  split; [|split; [|split; [|split]]].
  - intros c w Hs. apply suppressed_out. apply ignored_spec. rewrite Hig. exact Hs.
  - intros e msg w c0 Hc. rewrite <- Hec in Hc.
    destruct (Err_scan lg e w c0 Hc) as [ev1 [Hscan _]].
    unfold Err. rewrite Hscan. unfold log.
    destruct (ignored (toIgnore lg) msg); simpl;
      unfold Count; simpl; rewrite filter_app, length_app;
      rewrite filter_cons_True by reflexivity; simpl; lia.
  - intros Hnone c w. apply run_without_counter. rewrite Hec. exact Hnone.
  - exact Hctx.
  - unfold LoggerOps.NotInited. rewrite Hin. reflexivity.
Qed.

Lemma New_applies_config_witness :
  @New names_backend (WithToIgnore (NewConfig nil_slice) ["ignore me"]) [] (mkStore ∅ 0)
     start_globals
  = (rfc_globals,
     Ok (mkLogger (mkZ (DiodeWriter Discard 1000 10000000 AlertDefault) zInfo true [] [])
           None ["ignore me"] false true)) /\
  out (@run go_fmt
         (mkLogger (mkZ (DiodeWriter Discard 1000 10000000 AlertDefault) zInfo true [] [])
            None ["ignore me"] false true)
         (CInfo "ignore me" []) empty_world).1 = out empty_world.
Proof.
  assert (Hnew : @New names_backend (WithToIgnore (NewConfig nil_slice) ["ignore me"]) []
                   (mkStore ∅ 0) start_globals
                 = (rfc_globals,
                    Ok (mkLogger
                          (mkZ (DiodeWriter Discard 1000 10000000 AlertDefault) zInfo true
                             [] [])
                          None ["ignore me"] false true))) by reflexivity.
  split; [exact Hnew|].
  apply (@New_applies_config names_backend go_fmt _ _ _ _ _ _ Hnew).
  exists "ignore me". split; [left; reflexivity | exists "", ""; reflexivity].
Defined.

(** ** Logger methods and the global logger *)

Lemma Logger_eta (lg : Logger) :
  mkLogger (l lg) (errCounter lg) (toIgnore lg) (stackTrace lg) (inited lg) = lg.
Proof. destruct lg. reflexivity. Qed.

Lemma WithFields_nil (lg : Logger) : LoggerOps.WithFields lg [] = lg.
Proof.
  destruct lg as [[zw zlv zt zc zh] ec ig stk ini].
  unfold LoggerOps.WithFields, z_With_Fields. simpl. rewrite app_nil_r. reflexivity.
Qed.

Section Methods.
Context `{Backend}.

(** X19.  [Logger.WithLevel]: an empty level string returns the Logger as
    it is, without consulting the parser; a level the parser rejects
    panics with "cannot parse level=..."; an accepted level returns a
    Logger that differs from the receiver in the minimum level only, so it
    keeps its writer also for "disabled". *)
Theorem Logger_WithLevel (lg : Logger) (level : string) :
  (level = "" -> LoggerOps.WithLevel lg level = Ok lg) /\
  (level <> "" -> ParseLevel level = None ->
   LoggerOps.WithLevel lg level = Panics ("cannot parse level=" +:+ level)) /\
  (forall lvl, level <> "" -> ParseLevel level = Some lvl ->
   exists lg',
     LoggerOps.WithLevel lg level = Ok lg' /\
     z_level (l lg') = lvl /\
     z_w (l lg') = z_w (l lg) /\
     z_context (l lg') = z_context (l lg) /\
     z_hooks (l lg') = z_hooks (l lg) /\
     errCounter lg' = errCounter lg /\ toIgnore lg' = toIgnore lg /\
     stackTrace lg' = stackTrace lg /\ inited lg' = inited lg).
Proof.
  unfold LoggerOps.WithLevel. split; [|split].
  - intros ->. reflexivity.
  - intros Hne Hnone. rewrite bool_decide_eq_false_2 by exact Hne.
    rewrite Hnone. reflexivity.
  - intros lvl Hne Hsome. rewrite bool_decide_eq_false_2 by exact Hne.
    rewrite Hsome. eexists. split; [reflexivity|]. simpl. repeat split.
Qed.

(** X20.  Setting a level other than "disabled" on the [Config] before
    [New], or on the Logger that [New] returns, gives the same Logger and
    the same package variables, whenever the [Config] itself was not
    switched off. *)
Theorem New_WithLevel_commute (cfg : Config) (fields : list any) (st : Store)
    (g g1 : zGlobals) (lg : Logger) (level : string) (lvl : zLevel) :
  level <> "" -> level <> DisabledLevel -> Level cfg <> DisabledLevel ->
  ParseLevel level = Some lvl ->
  New cfg fields st g = (g1, Ok lg) ->
  exists lg',
    LoggerOps.WithLevel lg level = Ok lg' /\
    New (WithLevel cfg level) fields st g = (g1, Ok lg').
Proof.
  intros Hne Hnd Hcd Hparse Hnew.
  unfold LoggerOps.WithLevel. rewrite (bool_decide_eq_false_2 _ Hne), Hparse.
  eexists. split; [reflexivity|].
  unfold New in *. simpl.
  rewrite (bool_decide_eq_false_2 _ Hne), (bool_decide_eq_false_2 _ Hnd), Hparse.
  rewrite (bool_decide_eq_false_2 _ Hcd) in Hnew.
  destruct (ParseLevel (if bool_decide (Level cfg = "") then InfoLevel else Level cfg));
    [|discriminate].
  destruct ((if bool_decide (s_len (Writers cfg) = 0) || false then [Discard]
             else view st (Writers cfg)) !! 0); [|discriminate].
  injection Hnew as <- <-. destruct (Hook cfg); reflexivity.
Qed.

(** X21.  [Logger.Update] makes the Logger exactly the one [New] returns
    for the [Config]: nothing of the old Logger survives, neither its
    context fields nor its counter, ignore-list or stack flag.  When [New]
    panics, [Update] panics with the same value and the Logger is as it
    was.  [Nop()] is the one constructor whose Logger reports
    [NotInited]. *)
Theorem Update_replaces (lg : Logger) (cfg : Config) (fields : list any) (st : Store)
    (g : zGlobals) :
  (forall g1 newLogger, New cfg fields st g = (g1, Ok newLogger) ->
   LoggerOps.Update lg cfg fields st g = (g1, Returned, newLogger) /\
   LoggerOps.NotInited newLogger = false) /\
  (forall g1 v, New cfg fields st g = (g1, Panics v) ->
   LoggerOps.Update lg cfg fields st g = (g1, Panicked v, lg)) /\
  LoggerOps.NotInited LoggerOps.Nop = true /\
  (forall zl, LoggerOps.NotInited (LoggerOps.NewFromZerolog zl) = false).
Proof.
  split; [|split; [|split; [reflexivity | reflexivity]]].
  - intros g1 newLogger Hnew. unfold LoggerOps.Update. rewrite Hnew, Logger_eta.
    split; [reflexivity|].
    destruct (New_Ok_inv cfg fields st g g1 newLogger Hnew)
      as [level [output0 [target [_ [_ [_ [_ [_ [_ [_ [_ [_ [Hin _]]]]]]]]]]]]].
    unfold LoggerOps.NotInited. rewrite Hin. reflexivity.
  - intros g1 v Hnew. unfold LoggerOps.Update. rewrite Hnew. reflexivity.
Qed.

(** X22.  The global [Init] and [Update] do the same thing.  When [New]
    succeeds, the new Logger becomes the global logger and the writer of
    Go's standard [log] package, whose flags are set to 0; when [New]
    panics, the global logger and the standard [log] package are left as
    they were. *)
Theorem Global_Init_installs (cfg : Config) (fields : list any) (st : Store)
    (g : zGlobals) (p : Process) :
  Global.Update cfg fields st g p = Global.Init cfg fields st g p /\
  (forall g1 lg, New cfg fields st g = (g1, Ok lg) ->
   Global.Init cfg fields st g p = (g1, Returned, mkProcess lg 0 (Some lg))) /\
  (forall g1 v, New cfg fields st g = (g1, Panics v) ->
   Global.Init cfg fields st g p = (g1, Panicked v, p)).
Proof.
  split; [|split].
  - unfold Global.Update, Global.Init, LoggerOps.Update.
    destruct (New cfg fields st g) as [g1 [lg | v]].
    + rewrite Logger_eta. reflexivity.
    + destruct p. reflexivity.
  - intros g1 lg Hnew. unfold Global.Init. rewrite Hnew.
    unfold Global.SetStdLogger. simpl. rewrite WithFields_nil. reflexivity.
  - intros g1 v Hnew. unfold Global.Init. rewrite Hnew. reflexivity.
Qed.
End Methods.

Lemma Logger_WithLevel_witness :
  @LoggerOps.WithLevel names_backend sample_logger "loud"
  = Panics "cannot parse level=loud".
Proof.
  apply (@Logger_WithLevel names_backend sample_logger "loud").
  - discriminate.
  - reflexivity.
Defined.

Lemma New_WithLevel_commute_witness :
  @New names_backend (WithLevel waiter_config "debug") [] (mkStore ∅ 0) start_globals
  = (rfc_globals,
     Ok (mkLogger (mkZ (DiodeWriter Discard 1000 0 AlertDefault) zDebug true [] []) None []
           false true)).
Proof.
  destruct (@New_WithLevel_commute names_backend waiter_config [] (mkStore ∅ 0)
              start_globals rfc_globals waiter_logger "debug" zDebug)
    as [lg' [Hlv Hnew]].
  - discriminate.
  - discriminate.
  - discriminate.
  - reflexivity.
  - reflexivity.
  - rewrite Hnew. injection Hlv as <-. reflexivity.
Defined.

(** X23.  The global [WithToIgnore] assigns to the global logger: the
    Logger it returns is the new global logger, with the given ignore-list
    in place of the old one, so every later global call whose message
    contains one of the entries emits nothing.  The writer installed in
    Go's standard [log] package is not replaced. *)
Theorem Global_WithToIgnore_assigns `{Fmt} (toIgnore0 : list string) (p : Process) :
  let r := Global.WithToIgnore toIgnore0 p in
  Global.Default r.2 = r.1 /\
  toIgnore (Global.Default r.2) = toIgnore0 /\
  l (Global.Default r.2) = l (Global.Default p) /\
  errCounter (Global.Default r.2) = errCounter (Global.Default p) /\
  stdlog_output r.2 = stdlog_output p /\
  (forall c w, (exists s, In s toIgnore0 /\ substring_of s (message c)) ->
               out (Global.run r.2 c w).1 = out w).
Proof.
  simpl. repeat split.
  intros c w Hs. unfold Global.run. simpl. apply suppressed_out.
  apply ignored_spec. exact Hs.
Qed.


(** X24.  [NewConsoleJSON], with a backend that knows the level "info":
    whatever the store and the growth policy of the runtime, it returns an
    initialised Logger at info level that writes to stderr through a diode
    of size 1000 polled every 10ms, with the given fields as context and
    without ignore-list, counter or stack traces. *)
Theorem NewConsoleJSON_default `{Backend} (growcap : nat -> nat -> nat)
    (fields : list any) (st : Store) (g : zGlobals) (info : zLevel) :
  ParseLevel InfoLevel = Some info ->
  (LoggerOps.NewConsoleJSON growcap fields st g).1
  = (mkGlobals time_RFC3339 true,
     Ok (mkLogger (mkZ (DiodeWriter Stderr 1000 10000000 AlertDefault) info true fields [])
           None [] false true)).
Proof.
  intros Hinfo.
  unfold LoggerOps.NewConsoleJSON, WithConsoleJSON, WithWriter, go_append. simpl.
  unfold New. simpl. rewrite Hinfo.
  unfold view. simpl. rewrite lookup_insert_eq. reflexivity.
Qed.

Lemma NewConsoleJSON_default_witness :
  (@LoggerOps.NewConsoleJSON names_backend double_growcap [AStr "service"; AStr "api"]
     (mkStore ∅ 0) start_globals).1
  = (rfc_globals,
     Ok (mkLogger
           (mkZ (DiodeWriter Stderr 1000 10000000 AlertDefault) zInfo true
              [AStr "service"; AStr "api"] [])
           None [] false true)).
Proof.
  apply (@NewConsoleJSON_default names_backend double_growcap [AStr "service"; AStr "api"]
           (mkStore ∅ 0) start_globals zInfo).
  reflexivity.
Defined.
